(** * Shard router filter: tiered tenant-to-shard lookup

    A shallow embedding of the Envoy Go plugin [shard_router]
    (config.go: [PluginConfig], [Merge], [filterFactory]; filter.go: the
    three-tier lookup [orchestratedLookup] and its helpers), and the
    properties of the lookup protocol proved over it.

    Go strings are [string]; Go [int] and [time.Duration] values are [Z]
    (no arithmetic is performed on them by the modelled code); a Go [error]
    is the inductive [error], with [option error] for a possibly-nil error.
    Pointers to configurations live in a heap ([gmap loc PluginConfig]).
    The Redis server and the S3 object store are an explicit [World]; the
    calls made to them and the log lines written are recorded in the state.
    The filter's mutex is not modelled: one call runs at a time. *)

From stdpp Require Import base gmap strings list fin_maps.
From Stdlib Require Import ZArith Lia Ascii.

Local Open Scope Z_scope.
Local Open Scope string_scope.
Local Open Scope list_scope.

(** ** Errors *)

(** A Go [error] value.  [redis_Nil] is the sentinel [redis.Nil] that the
    Redis client returns for an absent key (compared with [==] in the
    source); every other error is known by its message. *)
Inductive error : Type :=
| redis_Nil
| errorString (msg : string).

#[global] Instance error_eq_dec : EqDecision error.
Proof. solve_decision. Defined.

(** [err.Error()], as printed by the [%v] verb. *)
Definition Error (e : error) : string :=
  match e with
  | redis_Nil => "redis: nil"
  | errorString msg => msg
  end.

(** [fmt.Errorf] with a single [%s] argument at the end of the format. *)
Definition fmt_Errorf (prefix arg : string) : error := errorString (prefix +:+ arg).

(** ** Configuration (config.go) *)

Record TenantShardMapping : Type := {
  TenantID : string;
  ShardID : string
}.

Record MappingData : Type := {
  Mappings : list TenantShardMapping
}.

Record PluginConfig : Type := {
  S3Bucket : string;
  S3Key : string;
  S3Region : string;
  S3Endpoint : string;
  RedisAddr : string;
  RedisPassword : string;
  RedisDB : Z;
  RedisKeyPrefix : string;
  MemoryCacheSize : Z;
  RedisTTL : Z;
  TenantExtractionMode : string;
  TenantHeaderName : string;
  RedisTimeout : Z;
  S3Timeout : Z
}.

(** Field-wise override used by [Merge]: [if child.F != zero { new.F = child.F }]. *)
Definition override_string (parent child : string) : string :=
  if decide (child = "") then parent else child.

Definition override_num (parent child : Z) : Z :=
  if decide (child = 0) then parent else child.

(** The value of [newConfig] when [Merge] returns: a copy of the parent
    with every non-zero child field written over it. *)
Definition merged (parentConfig childConfig : PluginConfig) : PluginConfig :=
  let newConfig := parentConfig in
  {| S3Bucket := override_string (S3Bucket newConfig) (S3Bucket childConfig);
     S3Key := override_string (S3Key newConfig) (S3Key childConfig);
     S3Region := override_string (S3Region newConfig) (S3Region childConfig);
     S3Endpoint := override_string (S3Endpoint newConfig) (S3Endpoint childConfig);
     RedisAddr := override_string (RedisAddr newConfig) (RedisAddr childConfig);
     RedisPassword := override_string (RedisPassword newConfig) (RedisPassword childConfig);
     RedisDB := override_num (RedisDB newConfig) (RedisDB childConfig);
     RedisKeyPrefix := override_string (RedisKeyPrefix newConfig) (RedisKeyPrefix childConfig);
     MemoryCacheSize := override_num (MemoryCacheSize newConfig) (MemoryCacheSize childConfig);
     RedisTTL := override_num (RedisTTL newConfig) (RedisTTL childConfig);
     TenantExtractionMode :=
       override_string (TenantExtractionMode newConfig) (TenantExtractionMode childConfig);
     TenantHeaderName := override_string (TenantHeaderName newConfig) (TenantHeaderName childConfig);
     RedisTimeout := override_num (RedisTimeout newConfig) (RedisTimeout childConfig);
     S3Timeout := override_num (S3Timeout newConfig) (S3Timeout childConfig) |}.

(** Configurations are passed by pointer.  A heap maps locations to the
    configuration stored there. *)
Abbreviation loc := positive.
Abbreviation heap := (gmap positive PluginConfig).

(** [Merge(parent, child)]: dereferences both pointers (a dangling pointer
    is [None]), allocates [newConfig] at a location not yet in the heap and
    returns its address together with the heap after the call. *)
Definition Merge (h : heap) (parent child : loc) : option (heap * loc) :=
  match h !! parent, h !! child with
  | Some parentConfig, Some childConfig =>
      let l := fresh (dom h) in
      Some (<[l := merged parentConfig childConfig]> h, l)
  | _, _ => None
  end.

(** ** The in-memory LRU cache *)

(** Modelled from the spec: the recency cache [lru.Cache[string, string]]
    of the imported package hashicorp/golang-lru/v2, whose code is not part
    of the repository sources.  Section 4.1 of the specification gives its
    contract: a capacity fixed at construction, [Get] refreshing the
    recency of a hit, and an insertion into a full cache evicting the
    least-recently-used entry.  The entries are kept most recent first. *)
Record LRU : Type := {
  lru_size : Z;
  lru_items : list (string * string)
}.

(** The value held for key [k], if any. *)
Fixpoint lru_find (k : string) (l : list (string * string)) : option string :=
  match l with
  | [] => None
  | (k', v) :: r => if decide (k' = k) then Some v else lru_find k r
  end.

(** The entries without the one for key [k]. *)
Fixpoint lru_remove (k : string) (l : list (string * string)) : list (string * string) :=
  match l with
  | [] => []
  | (k', v) :: r => if decide (k' = k) then lru_remove k r else (k', v) :: lru_remove k r
  end.

(** Modelled from the spec: [lru.New(size)] of the same package; the capacity
    is set at construction, and one that is not positive is refused. *)
Definition lru_New (size : Z) : error + LRU :=
  if decide (size <= 0) then inl (errorString "must provide a positive size")
  else inr {| lru_size := size; lru_items := [] |}.

(** Modelled from the spec: [c.Get(key)] of the same package; a hit counts
    as a use and moves the entry to the front. *)
Definition lru_Get (c : LRU) (key : string) : string * bool * LRU :=
  match lru_find key (lru_items c) with
  | Some v =>
      (v, true, {| lru_size := lru_size c; lru_items := (key, v) :: lru_remove key (lru_items c) |})
  | None => ("", false, c)
  end.

(** Modelled from the spec: [c.Add(key, value)] of the same package; an
    existing key is updated and moved to the front; a new key is pushed to
    the front and, if the cache then holds more than [lru_size] entries, the
    entry at the back, the least recently used, is removed. *)
Definition lru_Add (c : LRU) (key value : string) : LRU :=
  match lru_find key (lru_items c) with
  | Some _ =>
      {| lru_size := lru_size c; lru_items := (key, value) :: lru_remove key (lru_items c) |}
  | None =>
      let l := (key, value) :: lru_items c in
      {| lru_size := lru_size c;
         lru_items := if decide (lru_size c < Z.of_nat (length l)) then removelast l else l |}
  end.

Definition lru_keys (c : LRU) : list string := (lru_items c).*1.

Definition lru_Len (c : LRU) : Z := Z.of_nat (length (lru_items c)).

(** The representation invariant of a cache built by [lru_New]. *)
Record lru_wf (c : LRU) : Prop := {
  lru_wf_size : 0 < lru_size c;
  lru_wf_len : lru_Len c <= lru_size c;
  lru_wf_nodup : NoDup (lru_keys c)
}.

(** ** The outside world: Redis and S3 *)

(** What fetching and decoding the mapping document produces, by the stage
    at which [lookupInS3] can fail: [GetObjectWithContext], [io.ReadAll] on
    the body, [json.Unmarshal] into [MappingData]. *)
Inductive S3Outcome : Type :=
| GetObjectError (e : error)
| ReadAllError (e : error)
| UnmarshalError (e : error)
| Parsed (d : MappingData).

(** The Redis server holds [redis_kv]; [redis_get_err] and [redis_set_err]
    say whether the next GET and the next SET fail (time-out, connection
    loss, ...) and with which error.  A failed SET leaves [redis_kv] as it
    was.  [s3_get bucket key] is what the object store answers. *)
Record World : Type := {
  redis_kv : gmap string string;
  redis_get_err : option error;
  redis_set_err : option error;
  s3_get : string -> string -> S3Outcome
}.

(** Calls that leave the filter, and calls to the memory cache, in the
    order in which they are made. *)
Inductive Call : Type :=
| MemGet (tenant : string)
| MemAdd (tenant shard : string)
| RedisGET (key : string)
| RedisSET (key value : string) (ttl : Z)
| S3GetObject (bucket key : string).

#[global] Instance Call_eq_dec : EqDecision Call.
Proof. solve_decision. Defined.

Inductive LogLevel : Type := Debug | Warn.

(** ** The filter *)

Record redis_Options : Type := {
  Addr : string;
  Password : string;
  DB : Z
}.

Record aws_Config : Type := {
  Region : string;
  Endpoint : option string;
  S3ForcePathStyle : option bool
}.

Record ShardRouterFilter : Type := {
  config : PluginConfig;
  memoryCache : option LRU;
  redisClient : option redis_Options;
  s3Client : option aws_Config;
  currentShardID : string
}.

(** [filterFactory]: [inl] is a panic with its message.  [sess_err] is the
    error, if any, of [session.NewSession]. *)
Definition filterFactory (conf : PluginConfig) (sess_err : option error)
  : string + ShardRouterFilter :=
  match lru_New (MemoryCacheSize conf) with
  | inl err => inl ("failed to create memory cache: " +:+ Error err)
  | inr cache =>
      let client := {| Addr := RedisAddr conf; Password := RedisPassword conf; DB := RedisDB conf |} in
      let awsConfig :=
        if decide (S3Endpoint conf = "")
        then {| Region := S3Region conf; Endpoint := None; S3ForcePathStyle := None |}
        else {| Region := S3Region conf; Endpoint := Some (S3Endpoint conf);
                S3ForcePathStyle := Some true |} in
      match sess_err with
      | Some err => inl ("failed to create AWS session: " +:+ Error err)
      | None =>
          inr {| config := conf; memoryCache := Some cache; redisClient := Some client;
                 s3Client := Some awsConfig; currentShardID := "" |}
      end
  end.

(** ** State passing *)

Record St : Type := {
  st_filter : ShardRouterFilter;
  st_world : World;
  st_calls : list Call;
  st_logs : list (LogLevel * string)
}.

Definition M (A : Type) : Type := St -> A * St.

Definition ret {A} (a : A) : M A := fun s => (a, s).

Definition bind {A B} (m : M A) (k : A -> M B) : M B :=
  fun s => match m s with (a, s') => k a s' end.

Notation "'let*' x ':=' m 'in' k" := (bind m (fun x => k))
  (at level 10, x pattern, m at level 100, k at level 200).

Definition getFilter : M ShardRouterFilter := fun s => (st_filter s, s).

Definition getWorld : M World := fun s => (st_world s, s).

Definition call (c : Call) : M unit := fun s =>
  (tt, {| st_filter := st_filter s; st_world := st_world s;
          st_calls := st_calls s ++ [c]; st_logs := st_logs s |}).

Definition logf (lvl : LogLevel) (msg : string) : M unit := fun s =>
  (tt, {| st_filter := st_filter s; st_world := st_world s;
          st_calls := st_calls s; st_logs := st_logs s ++ [(lvl, msg)] |}).

Definition LogDebugf : string -> M unit := logf Debug.
Definition LogWarnf : string -> M unit := logf Warn.

Definition setMemoryCache (c : LRU) : M unit := fun s =>
  let f := st_filter s in
  (tt, {| st_filter := {| config := config f; memoryCache := Some c;
                          redisClient := redisClient f; s3Client := s3Client f;
                          currentShardID := currentShardID f |};
          st_world := st_world s; st_calls := st_calls s; st_logs := st_logs s |}).

Definition setRedisKV (kv : gmap string string) : M unit := fun s =>
  let w := st_world s in
  (tt, {| st_filter := st_filter s;
          st_world := {| redis_kv := kv; redis_get_err := redis_get_err w;
                         redis_set_err := redis_set_err w; s3_get := s3_get w |};
          st_calls := st_calls s; st_logs := st_logs s |}).

(** The state in which a call starts: nothing called or logged yet. *)
Definition start (f : ShardRouterFilter) (w : World) : St :=
  {| st_filter := f; st_world := w; st_calls := []; st_logs := [] |}.

(** *** The clients *)

(** [redisClient.Get(ctx, key)]: the command's value and error. *)
Definition redis_Get (key : string) : M (string * option error) :=
  let* _ := call (RedisGET key) in
  let* w := getWorld in
  match redis_get_err w with
  | Some e => ret ("", Some e)
  | None =>
      match redis_kv w !! key with
      | Some v => ret (v, None)
      | None => ret ("", Some redis_Nil)
      end
  end.

(** [redisClient.Set(ctx, key, value, ttl).Err()]. *)
Definition redis_Set (key value : string) (ttl : Z) : M (option error) :=
  let* _ := call (RedisSET key value ttl) in
  let* w := getWorld in
  match redis_set_err w with
  | Some e => ret (Some e)
  | None => let* _ := setRedisKV (<[key := value]> (redis_kv w)) in ret None
  end.

(** [GetObjectWithContext], [io.ReadAll] and [json.Unmarshal] in a row. *)
Definition s3_fetch (bucket key : string) : M S3Outcome :=
  let* _ := call (S3GetObject bucket key) in
  let* w := getWorld in
  ret (s3_get w bucket key).

(** ** The lookup tiers (filter.go) *)

(** [lookupInMemoryCache]. *)
Definition lookupInMemoryCache (tenantID : string) : M (string * bool) :=
  let* f := getFilter in
  let miss :=
    let* _ := LogDebugf ("Memory cache miss for tenant: " +:+ tenantID) in
    ret ("", false) in
  match memoryCache f with
  | Some c =>
      let* _ := call (MemGet tenantID) in
      match lru_Get c tenantID with
      | (shardID, found, c') =>
          let* _ := setMemoryCache c' in
          if found then
            let* _ := LogDebugf ("Memory cache hit for tenant: " +:+ tenantID
                                 +:+ " -> shard: " +:+ shardID) in
            ret (shardID, true)
          else miss
      end
  | None => miss
  end.

(** [lookupInRedisCache]. *)
Definition lookupInRedisCache (tenantID : string) : M (string * option error) :=
  let* f := getFilter in
  match redisClient f with
  | None => ret ("", Some (errorString "redis client not initialized"))
  | Some _ =>
      let key := RedisKeyPrefix (config f) +:+ tenantID in
      let* result := redis_Get key in
      match result.2 with
      | Some e =>
          if decide (e = redis_Nil) then
            let* _ := LogDebugf ("Redis cache miss for tenant: " +:+ tenantID) in
            ret ("", None)
          else
            let* _ := LogWarnf ("Redis lookup error for tenant " +:+ tenantID
                                +:+ ": " +:+ Error e) in
            ret ("", Some e)
      | None =>
          match result with
          | (_, Some err) => ret ("", Some err)
          | (shardID, None) =>
              let* _ := LogDebugf ("Redis cache hit for tenant: " +:+ tenantID
                                   +:+ " -> shard: " +:+ shardID) in
              ret (shardID, None)
          end
      end
  end.

(** [cacheInRedis]. *)
Definition cacheInRedis (tenantID shardID : string) : M (option error) :=
  let* f := getFilter in
  match redisClient f with
  | None => ret (Some (errorString "redis client not initialized"))
  | Some _ =>
      let key := RedisKeyPrefix (config f) +:+ tenantID in
      let* err := redis_Set key shardID (RedisTTL (config f)) in
      match err with
      | Some e =>
          let* _ := LogWarnf ("Failed to cache in Redis for tenant " +:+ tenantID
                              +:+ ": " +:+ Error e) in
          ret (Some e)
      | None =>
          let* _ := LogDebugf ("Cached in Redis: tenant " +:+ tenantID
                               +:+ " -> shard " +:+ shardID) in
          ret None
      end
  end.

(** The loop of [lookupInS3] over [mappingData.Mappings]: the shard of the
    first entry whose [TenantID] is the one looked for. *)
Fixpoint searchMappings (tenantID : string) (mappings : list TenantShardMapping)
  : option string :=
  match mappings with
  | [] => None
  | mapping :: rest =>
      if decide (TenantID mapping = tenantID) then Some (ShardID mapping)
      else searchMappings tenantID rest
  end.

(** [lookupInS3]. *)
Definition lookupInS3 (tenantID : string) : M (string * option error) :=
  let* f := getFilter in
  match s3Client f with
  | None => ret ("", Some (errorString "s3 client not initialized"))
  | Some _ =>
      let* out := s3_fetch (S3Bucket (config f)) (S3Key (config f)) in
      match out with
      | GetObjectError err =>
          let* _ := LogWarnf ("Failed to fetch mapping from S3: " +:+ Error err) in
          ret ("", Some err)
      | ReadAllError err =>
          let* _ := LogWarnf ("Failed to read S3 object body: " +:+ Error err) in
          ret ("", Some err)
      | UnmarshalError err =>
          let* _ := LogWarnf ("Failed to parse mapping data from S3: " +:+ Error err) in
          ret ("", Some err)
      | Parsed mappingData =>
          match searchMappings tenantID (Mappings mappingData) with
          | Some shardID =>
              let* _ := LogDebugf ("S3 lookup hit for tenant: " +:+ tenantID
                                   +:+ " -> shard: " +:+ shardID) in
              ret (shardID, None)
          | None =>
              let* _ := LogDebugf ("S3 lookup miss for tenant: " +:+ tenantID) in
              ret ("", None)
          end
      end
  end.

(** [cacheInMemory]. *)
Definition cacheInMemory (tenantID shardID : string) : M unit :=
  let* f := getFilter in
  match memoryCache f with
  | Some c =>
      let* _ := call (MemAdd tenantID shardID) in
      let* _ := setMemoryCache (lru_Add c tenantID shardID) in
      LogDebugf ("Cached in memory: tenant " +:+ tenantID +:+ " -> shard " +:+ shardID)
  | None => ret tt
  end.

(** Tier 3 of [orchestratedLookup], reached when neither cache answered. *)
Definition orchestratedLookup_tier3 (tenantID : string) : M (string * option error) :=
  let* r := lookupInS3 tenantID in
  match r with
  | (_, Some err) =>
      let* _ := LogWarnf ("S3 lookup failed for tenant " +:+ tenantID +:+ ": " +:+ Error err) in
      ret ("", Some err)
  | (shardID, None) =>
      if decide (shardID <> "") then
        let* err := cacheInRedis tenantID shardID in
        let* _ := match err with
                  | Some e => LogWarnf ("Failed to cache in Redis: " +:+ Error e)
                  | None => ret tt
                  end in
        let* _ := cacheInMemory tenantID shardID in
        ret (shardID, None)
      else
        ret ("", Some (fmt_Errorf "no shard mapping found for tenant: " tenantID))
  end.

(** [orchestratedLookup]: the shard and the error it returns. *)
Definition orchestratedLookup (tenantID : string) : M (string * option error) :=
  let* r1 := lookupInMemoryCache tenantID in
  match r1 with
  | (shardID, true) => ret (shardID, None)
  | (_, false) =>
      let* r2 := lookupInRedisCache tenantID in
      match r2 with
      | (_, Some err) =>
          let* _ := LogWarnf ("Redis lookup failed for tenant " +:+ tenantID
                              +:+ ": " +:+ Error err) in
          orchestratedLookup_tier3 tenantID
      | (shardID, None) =>
          if decide (shardID <> "") then
            let* _ := cacheInMemory tenantID shardID in
            ret (shardID, None)
          else orchestratedLookup_tier3 tenantID
      end
  end.

(** * Notions used in the statements *)

(** ** What the tiers hold and answer *)

(** No entry of the cache holds the empty shard. *)
Definition lru_nonempty (c : LRU) : Prop := Forall (fun p => p.2 <> "") (lru_items c).

(** The key under which the filter keeps a tenant in Redis. *)
Definition redis_key (f : ShardRouterFilter) (tenantID : string) : string :=
  RedisKeyPrefix (config f) +:+ tenantID.

(** The memory cache has no entry for the tenant. *)
Definition local_miss (f : ShardRouterFilter) (tenantID : string) : Prop :=
  match memoryCache f with
  | Some c => lru_find tenantID (lru_items c) = None
  | None => True
  end.

(** The memory cache holds [shardID] for the tenant. *)
Definition local_hit (f : ShardRouterFilter) (tenantID shardID : string) : Prop :=
  exists c, memoryCache f = Some c /\ lru_find tenantID (lru_items c) = Some shardID.

(** The shared cache answers with the non-empty [shardID]. *)
Definition shared_hit (f : ShardRouterFilter) (w : World) (tenantID shardID : string) : Prop :=
  is_Some (redisClient f) /\ redis_get_err w = None /\
  redis_kv w !! redis_key f tenantID = Some shardID /\ shardID <> "".

(** The shared cache is reached and has no usable entry: the key is absent
    (the client reports [redis.Nil]) or holds the empty string. *)
Definition shared_miss (f : ShardRouterFilter) (w : World) (tenantID : string) : Prop :=
  is_Some (redisClient f) /\
  (redis_get_err w = None \/ redis_get_err w = Some redis_Nil) /\
  (redis_get_err w = None ->
   redis_kv w !! redis_key f tenantID = None \/ redis_kv w !! redis_key f tenantID = Some "").

(** The shared cache lookup fails with [e]: no client, or the GET returns
    an error other than [redis.Nil]. *)
Definition shared_error (f : ShardRouterFilter) (w : World) (e : error) : Prop :=
  (redisClient f = None /\ e = errorString "redis client not initialized") \/
  (is_Some (redisClient f) /\ redis_get_err w = Some e /\ e <> redis_Nil).

(** The shared cache produces no hit: it misses, or the lookup fails. *)
Definition shared_no_hit (f : ShardRouterFilter) (w : World) (tenantID : string) : Prop :=
  shared_miss f w tenantID \/ exists e, shared_error f w e.

(** The document the store returns for the configured bucket and key. *)
Definition store_answer (f : ShardRouterFilter) (w : World) : S3Outcome :=
  s3_get w (S3Bucket (config f)) (S3Key (config f)).

(** The store tier fails with [e]: no client, or one of the three stages
    of the fetch fails. *)
Definition store_failure (f : ShardRouterFilter) (w : World) (e : error) : Prop :=
  (s3Client f = None /\ e = errorString "s3 client not initialized") \/
  (is_Some (s3Client f) /\
   (store_answer f w = GetObjectError e \/ store_answer f w = ReadAllError e \/
    store_answer f w = UnmarshalError e)).

(** ** States after a step *)

(** The filter with its memory cache replaced. *)
Definition with_cache (f : ShardRouterFilter) (c : LRU) : ShardRouterFilter :=
  {| config := config f; memoryCache := Some c; redisClient := redisClient f;
     s3Client := s3Client f; currentShardID := currentShardID f |}.

(** The world with the contents of Redis replaced. *)
Definition with_kv (w : World) (kv : gmap string string) : World :=
  {| redis_kv := kv; redis_get_err := redis_get_err w;
     redis_set_err := redis_set_err w; s3_get := s3_get w |}.

(** The state after a step that made the calls [cs] and logged [ls]. *)
Definition after (s : St) (f : ShardRouterFilter) (w : World)
    (cs : list Call) (ls : list (LogLevel * string)) : St :=
  {| st_filter := f; st_world := w; st_calls := st_calls s ++ cs; st_logs := st_logs s ++ ls |}.

(** The state of Redis after [cacheInRedis]: written when there is a
    client and the SET succeeds, as before otherwise. *)
Definition kv_after_set (tenantID : string) (f0 : ShardRouterFilter) (w0 : World)
  (shardID : string)
  : gmap string string :=
  match redisClient f0, redis_set_err w0 with
  | Some _, None => <[redis_key f0 tenantID := shardID]> (redis_kv w0)
  | _, _ => redis_kv w0
  end.

(** The SET that [cacheInRedis] issues when there is a client. *)
Definition set_calls (tenantID : string) (f0 : ShardRouterFilter) (shardID : string)
  : list Call :=
  match redisClient f0 with
  | Some _ => [RedisSET (redis_key f0 tenantID) shardID (RedisTTL (config f0))]
  | None => []
  end.

(** The error that [cacheInRedis] returns. *)
Definition set_error (f0 : ShardRouterFilter) (w0 : World) : option error :=
  match redisClient f0 with
  | Some _ => redis_set_err w0
  | None => Some (errorString "redis client not initialized")
  end.

(** The filter after [cacheInMemory]. *)
Definition cache_added (f : ShardRouterFilter) (tenantID shardID : string) : ShardRouterFilter :=
  match memoryCache f with
  | Some c => with_cache f (lru_Add c tenantID shardID)
  | None => f
  end.

Definition mem_get_calls (f : ShardRouterFilter) (tenantID : string) : list Call :=
  match memoryCache f with Some _ => [MemGet tenantID] | None => [] end.

Definition mem_add_calls (f : ShardRouterFilter) (tenantID shardID : string) : list Call :=
  match memoryCache f with Some _ => [MemAdd tenantID shardID] | None => [] end.

Definition redis_get_calls (f : ShardRouterFilter) (tenantID : string) : list Call :=
  match redisClient f with Some _ => [RedisGET (redis_key f tenantID)] | None => [] end.

Definition s3_calls (f : ShardRouterFilter) : list Call :=
  match s3Client f with
  | Some _ => [S3GetObject (S3Bucket (config f)) (S3Key (config f))]
  | None => []
  end.

(** ** The paths of a call, and the filters the program can hold *)

(** What a call of [orchestratedLookup] on filter [f] in world [w] returns,
    the filter and the world it leaves and the calls it makes, path by
    path. *)
Inductive resolution (f : ShardRouterFilter) (w : World) (tenantID : string)
  : string * option error -> ShardRouterFilter -> World -> list Call -> Prop :=
| res_local c shardID :
    memoryCache f = Some c -> lru_find tenantID (lru_items c) = Some shardID ->
    resolution f w tenantID (shardID, None)
      (with_cache f (lru_Get c tenantID).2) w [MemGet tenantID]
| res_shared shardID :
    local_miss f tenantID -> shared_hit f w tenantID shardID ->
    resolution f w tenantID (shardID, None)
      (cache_added f tenantID shardID) w
      (mem_get_calls f tenantID ++ redis_get_calls f tenantID
       ++ mem_add_calls f tenantID shardID)
| res_failure e :
    local_miss f tenantID -> shared_no_hit f w tenantID -> store_failure f w e ->
    resolution f w tenantID ("", Some e) f w
      (mem_get_calls f tenantID ++ redis_get_calls f tenantID ++ s3_calls f)
| res_not_mapped d :
    local_miss f tenantID -> shared_no_hit f w tenantID ->
    is_Some (s3Client f) -> store_answer f w = Parsed d ->
    default "" (searchMappings tenantID (Mappings d)) = "" ->
    resolution f w tenantID
      ("", Some (fmt_Errorf "no shard mapping found for tenant: " tenantID)) f w
      (mem_get_calls f tenantID ++ redis_get_calls f tenantID ++ s3_calls f)
| res_found d shardID :
    local_miss f tenantID -> shared_no_hit f w tenantID ->
    is_Some (s3Client f) -> store_answer f w = Parsed d ->
    searchMappings tenantID (Mappings d) = Some shardID -> shardID <> "" ->
    resolution f w tenantID (shardID, None)
      (cache_added f tenantID shardID)
      (with_kv w (kv_after_set tenantID f w shardID))
      (mem_get_calls f tenantID ++ redis_get_calls f tenantID ++ s3_calls f
       ++ set_calls tenantID f shardID ++ mem_add_calls f tenantID shardID).

(** A filter is built by [filterFactory] and then only changed by calls of
    [orchestratedLookup], in whatever state the outside world is. *)
Inductive reachable : ShardRouterFilter -> Prop :=
| reachable_new conf sess_err f :
    filterFactory conf sess_err = inr f -> reachable f
| reachable_lookup f w tenantID :
    reachable f ->
    reachable (st_filter (orchestratedLookup tenantID (start f w)).2).

(** What holds of every such filter: the three clients are there, and the
    memory cache has the configured capacity, respects it, and holds no
    empty shard. *)
Record filter_ok (f : ShardRouterFilter) : Prop := {
  ok_cache : exists c, memoryCache f = Some c /\ lru_wf c /\ lru_nonempty c /\
                       lru_size c = MemoryCacheSize (config f);
  ok_redis : is_Some (redisClient f);
  ok_s3 : is_Some (s3Client f)
}.

(** ** The order of the tiers; the fields of a configuration; cache operations *)

(** The calls that look a tenant up, as opposed to those that write. *)
Definition is_query (c : Call) : bool :=
  match c with
  | MemGet _ | RedisGET _ | S3GetObject _ _ => true
  | MemAdd _ _ | RedisSET _ _ _ => false
  end.

(** Memory cache, then shared cache, then store. *)
Definition tier_order (f : ShardRouterFilter) (tenantID : string) : list Call :=
  [MemGet tenantID; RedisGET (redis_key f tenantID);
   S3GetObject (S3Bucket (config f)) (S3Key (config f))].

(** The string settings and the numeric settings of a configuration. *)
Definition string_fields : list (PluginConfig -> string) :=
  [S3Bucket; S3Key; S3Region; S3Endpoint; RedisAddr; RedisPassword; RedisKeyPrefix;
   TenantExtractionMode; TenantHeaderName].

Definition num_fields : list (PluginConfig -> Z) :=
  [RedisDB; MemoryCacheSize; RedisTTL; RedisTimeout; S3Timeout].

(** The operations the filter performs on its cache: [lookupInMemoryCache]
    calls [Get], [cacheInMemory] calls [Add]. *)
Inductive cache_op : Type :=
| OpGet (key : string)
| OpAdd (key value : string).

Definition apply_op (c : LRU) (op : cache_op) : LRU :=
  match op with
  | OpGet key => (lru_Get c key).2
  | OpAdd key value => lru_Add c key value
  end.

Definition apply_ops (c : LRU) (ops : list cache_op) : LRU := foldl apply_op c ops.

(** ** Concrete deployments *)

Definition demo_conf : PluginConfig :=
  {| S3Bucket := "tenant-mappings"; S3Key := "mappings.json"; S3Region := "us-east-1";
     S3Endpoint := ""; RedisAddr := "redis:6379"; RedisPassword := ""; RedisDB := 0;
     RedisKeyPrefix := "shard_router:"; MemoryCacheSize := 2; RedisTTL := 300000000000;
     TenantExtractionMode := "subdomain"; TenantHeaderName := "X-Tenant-ID";
     RedisTimeout := 2000000000; S3Timeout := 5000000000 |}.

Definition demo_table : MappingData :=
  {| Mappings := [ {| TenantID := "tenant1"; ShardID := "shard-a" |};
                   {| TenantID := "acme"; ShardID := "shard-c" |} ] |}.

(** Both caches cold, every service up. *)
Definition demo_world : World :=
  {| redis_kv := ∅; redis_get_err := None; redis_set_err := None;
     s3_get := fun _ _ => Parsed demo_table |}.

Definition demo_filter : ShardRouterFilter :=
  {| config := demo_conf;
     memoryCache := Some {| lru_size := 2; lru_items := [] |};
     redisClient := Some {| Addr := "redis:6379"; Password := ""; DB := 0 |};
     s3Client := Some {| Region := "us-east-1"; Endpoint := None; S3ForcePathStyle := None |};
     currentShardID := "" |}.

(** The store is unreachable. *)
Definition demo_world_store_down : World :=
  {| redis_kv := ∅; redis_get_err := None; redis_set_err := None;
     s3_get := fun _ _ => GetObjectError (errorString "RequestError: send request failed") |}.

Definition demo_table_dup : MappingData :=
  {| Mappings := [ {| TenantID := "acme"; ShardID := "shard-c" |};
                   {| TenantID := "tenant1"; ShardID := "shard-a" |};
                   {| TenantID := "tenant1"; ShardID := "shard-z" |} ] |}.

Definition demo_world_dup : World :=
  {| redis_kv := ∅; redis_get_err := None; redis_set_err := None;
     s3_get := fun _ _ => Parsed demo_table_dup |}.

(** Redis does not answer: look-ups and writes time out. *)
Definition demo_world_redis_down : World :=
  {| redis_kv := ∅;
     redis_get_err := Some (errorString "dial tcp: i/o timeout");
     redis_set_err := Some (errorString "dial tcp: i/o timeout");
     s3_get := fun _ _ => Parsed demo_table |}.

(** Redis answers look-ups but refuses writes. *)
Definition demo_world_redis_readonly : World :=
  {| redis_kv := ∅; redis_get_err := None;
     redis_set_err := Some (errorString "READONLY You can't write against a read only replica.");
     s3_get := fun _ _ => Parsed demo_table |}.

(** Redis already holds the tenant. *)
Definition demo_world_redis_warm : World :=
  {| redis_kv := {[ "shard_router:tenant1" := "shard-a" ]};
     redis_get_err := None; redis_set_err := None;
     s3_get := fun _ _ => Parsed demo_table |}.

(** Redis holds an empty value for the tenant; the table has an entry with
    an empty shard. *)
Definition demo_world_empty : World :=
  {| redis_kv := {[ "shard_router:ghost" := "" ]};
     redis_get_err := None; redis_set_err := None;
     s3_get := fun _ _ =>
       Parsed {| Mappings := [ {| TenantID := "ghost"; ShardID := "" |};
                               {| TenantID := "ghost"; ShardID := "shard-b" |} ] |} |}.

Definition demo_parent : PluginConfig :=
  {| S3Bucket := "tenant-mappings"; S3Key := "mappings.json"; S3Region := "us-east-1";
     S3Endpoint := ""; RedisAddr := "redis:6379"; RedisPassword := ""; RedisDB := 3;
     RedisKeyPrefix := "shard_router:"; MemoryCacheSize := 2; RedisTTL := 300000000000;
     TenantExtractionMode := "subdomain"; TenantHeaderName := "X-Tenant-ID";
     RedisTimeout := 2000000000; S3Timeout := 5000000000 |}.

Definition demo_child : PluginConfig :=
  {| S3Bucket := ""; S3Key := "other.json"; S3Region := ""; S3Endpoint := "";
     RedisAddr := ""; RedisPassword := ""; RedisDB := 0; RedisKeyPrefix := "";
     MemoryCacheSize := 0; RedisTTL := 0; TenantExtractionMode := "header";
     TenantHeaderName := ""; RedisTimeout := 0; S3Timeout := 0 |}.

Definition demo_heap : gmap positive PluginConfig :=
  {[ 1%positive := demo_parent; 2%positive := demo_child ]}.

(** A cache of capacity two in which "b" is the more recent entry. *)
Definition demo_cache : LRU :=
  {| lru_size := 2; lru_items := [("b", "shard-b"); ("a", "shard-a")] |}.

(** * The rest of the plugin *)

(** ** Tenant extraction (filter.go) *)

(** [strings.Split(s, sep)] of the Go standard library, for a separator of
    one character: the substrings of [s] between the occurrences of [sep],
    in order; [s] itself, alone, when [sep] does not occur in it. *)
Fixpoint strings_Split (s : string) (sep : Ascii.ascii) : list string :=
  match s with
  | EmptyString => [""]
  | String c r =>
      if decide (c = sep) then "" :: strings_Split r sep
      else match strings_Split r sep with
           | h :: t => String c h :: t
           | [] => [String c ""]
           end
  end.

(** [extractTenantFromHost].  [parts[0]] and [strings.Split(...)[0]] are
    [nth 0]: the length test guards the first, and a split is never
    empty (lemma [strings_Split_nonempty]). *)
Definition extractTenantFromHost (f : ShardRouterFilter) (host : string)
  : string * option error :=
  if decide (TenantExtractionMode (config f) = "subdomain") then
    let parts := strings_Split host "."%char in
    let failed := ("", Some (fmt_Errorf "unable to extract tenant from host: " host)) in
    if decide (2 <= length parts)%nat then
      let tenant := nth 0 (strings_Split (nth 0 parts "") ":"%char) "" in
      if decide (tenant <> "") then (tenant, None) else failed
    else failed
  else
    ("", Some (fmt_Errorf "unsupported tenant extraction mode: "
                 (TenantExtractionMode (config f)))).

(** ** The stream callbacks (filter.go) *)

(** [api.StatusType]. *)
Inductive StatusType : Type :=
| Running
| LocalReply
| Continue
| StopAndBuffer
| StopAndBufferWatermark
| StopNoBuffer.

(** A header map, as far as the filter uses it: [Get] is the look-up of a
    name, [Set] the insertion of a value under a name. *)
Abbreviation HeaderMap := (gmap string string).

Definition setCurrentShardID (shardID : string) : M unit := fun s =>
  let f := st_filter s in
  (tt, {| st_filter := {| config := config f; memoryCache := memoryCache f;
                          redisClient := redisClient f; s3Client := s3Client f;
                          currentShardID := shardID |};
          st_world := st_world s; st_calls := st_calls s; st_logs := st_logs s |}).

(** The end of [DecodeHeaders], from the test [tenantID == ""] on. *)
Definition DecodeHeaders_resolve (tenantID : string) : M StatusType :=
  if decide (tenantID = "") then
    let* _ := LogWarnf "Unable to determine tenant ID" in
    ret Continue
  else
    let* _ := LogDebugf ("Extracted tenant ID: " +:+ tenantID) in
    let* r := orchestratedLookup tenantID in
    match r with
    | (_, Some err) =>
        let* _ := LogWarnf ("Failed to lookup shard for tenant " +:+ tenantID
                            +:+ ": " +:+ Error err) in
        ret Continue
    | (shardID, None) =>
        let* _ := setCurrentShardID shardID in
        let* _ := LogDebugf ("Found shard ID: " +:+ shardID +:+ " for tenant: " +:+ tenantID) in
        ret Continue
    end.

(** [DecodeHeaders]. *)
Definition DecodeHeaders (header : HeaderMap) (endStream : bool) : M StatusType :=
  match header !! "X-SHARD-ID" with
  | Some existingShardID =>
      let* _ := LogDebugf ("X-SHARD-ID header already present: " +:+ existingShardID) in
      ret Continue
  | None =>
      let* f := getFilter in
      if decide (TenantExtractionMode (config f) = "header") then
        match header !! TenantHeaderName (config f) with
        | Some headerTenantID => DecodeHeaders_resolve headerTenantID
        | None =>
            let* _ := LogWarnf ("Tenant header " +:+ TenantHeaderName (config f)
                                +:+ " not found") in
            ret Continue
        end
      else
        match header !! ":authority" with
        | Some host =>
            match extractTenantFromHost f host with
            | (_, Some err) =>
                let* _ := LogWarnf ("Failed to extract tenant from host " +:+ host
                                    +:+ ": " +:+ Error err) in
                ret Continue
            | (tenantID, None) => DecodeHeaders_resolve tenantID
            end
        | None =>
            let* _ := LogWarnf "Host header not found" in
            ret Continue
        end
  end.

(** [EncodeHeaders]: the response headers after the call, and the status. *)
Definition EncodeHeaders (header : HeaderMap) (endStream : bool) : M (HeaderMap * StatusType) :=
  let* f := getFilter in
  if decide (currentShardID f <> "") then
    let* _ := LogDebugf ("Added X-SHARD-ID response header: " +:+ currentShardID f) in
    ret (<["X-SHARD-ID" := currentShardID f]> header, Continue)
  else ret (header, Continue).

(** ** Parsing the configuration (config.go) *)

(** [errors.New]. *)
Definition errors_New (msg : string) : error := errorString msg.

(** Sequencing of steps that may return an error. *)
Definition try_bind {A B} (m : error + A) (k : A -> error + B) : error + B :=
  match m with
  | inl err => inl err
  | inr a => k a
  end.

Notation "'try' x ':=' m 'in' k" := (try_bind m (fun x => k))
  (at level 10, x pattern, m at level 100, k at level 200).

Section parse_model.
(** The type of Go's [float64], with the conversion [int(num)], and
    [time.ParseDuration] of the Go standard library (a duration is a number
    of nanoseconds). *)
Variable Number : Type.
Variable int_of : Number -> Z.
Variable time_ParseDuration : string -> error + Z.

(** A value of the map that [configStruct.Value.AsMap()] returns. *)
Inductive Value : Type :=
| VNull
| VBool (b : bool)
| VNumber (num : Number)
| VString (str : string)
| VList
| VStruct.

(** A key that must be present and hold a string. *)
Definition required_string (v : gmap string Value) (key : string) : error + string :=
  match v !! key with
  | Some (VString str) => inr str
  | Some _ => inl (errors_New (key +:+ " must be a string"))
  | None => inl (errors_New ("missing " +:+ key))
  end.

(** A key that holds a string when present, [absent] being the value of
    the field otherwise. *)
Definition optional_string (v : gmap string Value) (key absent : string) : error + string :=
  match v !! key with
  | Some (VString str) => inr str
  | Some _ => inl (errors_New (key +:+ " must be a string"))
  | None => inr absent
  end.

(** A key whose value is taken when it is a string and ignored otherwise;
    [absent] is the value of the field when the key is not there. *)
Definition lenient_string (v : gmap string Value) (key absent : string) : string :=
  match v !! key with
  | Some (VString str) => str
  | Some _ => ""
  | None => absent
  end.

(** A key that holds a number when present. *)
Definition optional_number (v : gmap string Value) (key : string) (absent : Z) : error + Z :=
  match v !! key with
  | Some (VNumber num) => inr (int_of num)
  | Some _ => inl (errors_New (key +:+ " must be a number"))
  | None => inr absent
  end.

(** A key that holds a duration, written as a string, when present. *)
Definition optional_duration (v : gmap string Value) (key : string) (absent : Z) : error + Z :=
  match v !! key with
  | Some (VString str) =>
      match time_ParseDuration str with
      | inl err => inl (errorString ("invalid " +:+ key +:+ " format: " +:+ Error err))
      | inr d => inr d
      end
  | Some _ => inl (errors_New (key +:+ " must be a string duration"))
  | None => inr absent
  end.

(** [Parse]; [unmarshalled] is the outcome of [any.UnmarshalTo] followed by
    [AsMap].  The fields are read in the order of the source, so that the
    first error met is the one returned. *)
Definition Parse (unmarshalled : error + gmap string Value) : error + PluginConfig :=
  try v := unmarshalled in
  try s3Bucket := required_string v "s3_bucket" in
  try s3Key := required_string v "s3_key" in
  try s3Region := optional_string v "s3_region" "us-east-1" in
  try s3Endpoint := optional_string v "s3_endpoint" "" in
  try redisAddr := required_string v "redis_addr" in
  let redisPassword := lenient_string v "redis_password" "" in
  try redisDB := optional_number v "redis_db" 0 in
  let redisKeyPrefix := lenient_string v "redis_key_prefix" "shard_router:" in
  try cacheSize := optional_number v "memory_cache_size" 1000 in
  try redisTTL := optional_duration v "redis_ttl" (5 * 60000000000) in
  try mode := optional_string v "tenant_extraction_mode" "subdomain" in
  let headerName := lenient_string v "tenant_header_name" "X-Tenant-ID" in
  try redisTimeout := optional_duration v "redis_timeout" (2 * 1000000000) in
  try s3Timeout := optional_duration v "s3_timeout" (5 * 1000000000) in
  inr {| S3Bucket := s3Bucket; S3Key := s3Key; S3Region := s3Region; S3Endpoint := s3Endpoint;
         RedisAddr := redisAddr; RedisPassword := redisPassword; RedisDB := redisDB;
         RedisKeyPrefix := redisKeyPrefix; MemoryCacheSize := cacheSize; RedisTTL := redisTTL;
         TenantExtractionMode := mode; TenantHeaderName := headerName;
         RedisTimeout := redisTimeout; S3Timeout := s3Timeout |}.
End parse_model.

Arguments VNull {Number}.
Arguments VBool {Number} b.
Arguments VNumber {Number} num.
Arguments VString {Number} str.
Arguments VList {Number}.
Arguments VStruct {Number}.

(** ** Notions used in the statements about the rest of the plugin *)

(** The configuration whose fields are all zero values. *)
Definition zero_config : PluginConfig :=
  {| S3Bucket := ""; S3Key := ""; S3Region := ""; S3Endpoint := ""; RedisAddr := "";
     RedisPassword := ""; RedisDB := 0; RedisKeyPrefix := ""; MemoryCacheSize := 0;
     RedisTTL := 0; TenantExtractionMode := ""; TenantHeaderName := ""; RedisTimeout := 0;
     S3Timeout := 0 |}.

(** The character [c] occurs in [s]. *)
Fixpoint occurs (c : Ascii.ascii) (s : string) : Prop :=
  match s with
  | EmptyString => False
  | String c' r => c' = c \/ occurs c r
  end.

(** The part of [s] before the first occurrence of [c]; [s] itself when [c]
    does not occur. *)
Fixpoint before (c : Ascii.ascii) (s : string) : string :=
  match s with
  | EmptyString => ""
  | String c' r => if decide (c' = c) then "" else String c' (before c r)
  end.

(** The filter with its current shard replaced. *)
Definition with_shard (f : ShardRouterFilter) (shardID : string) : ShardRouterFilter :=
  {| config := config f; memoryCache := memoryCache f; redisClient := redisClient f;
     s3Client := s3Client f; currentShardID := shardID |}.

(** The request names the tenant [tenantID]: it carries no "X-SHARD-ID";
    in header mode the configured header holds [tenantID], which is not
    empty; in any other mode ":authority" holds a host name from which
    [extractTenantFromHost] extracts [tenantID]. *)
Definition request_tenant (f : ShardRouterFilter) (header : HeaderMap) (tenantID : string)
  : Prop :=
  header !! "X-SHARD-ID" = None /\
  ((TenantExtractionMode (config f) = "header" /\
    header !! TenantHeaderName (config f) = Some tenantID /\ tenantID <> "") \/
   (TenantExtractionMode (config f) <> "header" /\
    exists host, header !! ":authority" = Some host /\
                 extractTenantFromHost f host = (tenantID, None))).

(** The request names no tenant to look up: it already carries an
    "X-SHARD-ID"; or, in header mode, the configured header is missing or
    empty; or, in another mode, ":authority" is missing or the extraction
    from it fails. *)
Definition request_without_tenant (f : ShardRouterFilter) (header : HeaderMap) : Prop :=
  is_Some (header !! "X-SHARD-ID") \/
  (TenantExtractionMode (config f) = "header" /\
   (header !! TenantHeaderName (config f) = None \/
    header !! TenantHeaderName (config f) = Some "")) \/
  (TenantExtractionMode (config f) <> "header" /\
   (header !! ":authority" = None \/
    exists host tenantID err, header !! ":authority" = Some host /\
                              extractTenantFromHost f host = (tenantID, Some err))).

(** A stand-in for [time.ParseDuration] that knows two durations. *)
Definition demo_ParseDuration (s : string) : error + Z :=
  if decide (s = "10m") then inr 600000000000
  else if decide (s = "1s") then inr 1000000000
  else inl (errorString ("time: invalid duration " +:+ s)).

(** A configuration document with the three required keys only. *)
Definition demo_doc : gmap string (Value Z) :=
  {[ "s3_bucket" := VString "tenant-mappings"; "s3_key" := VString "mappings.json";
     "redis_addr" := VString "redis:6379" ]}.

(** A request for tenant1 by its host name, and one by header. *)
Definition demo_request : HeaderMap :=
  {[ ":authority" := "tenant1.example.com:10000"; "accept" := "*/*" ]}.

(** * Properties *)

Ltac run_monad :=
  cbv [bind ret getFilter getWorld call logf LogDebugf LogWarnf setMemoryCache setRedisKV
       redis_Get redis_Set s3_fetch start]; cbn.

(** ** Lists of cache entries *)

Section lru_lists.
Implicit Types (k : string) (l : list (string * string)).

Lemma lru_find_None k l : lru_find k l = None <-> k ∉ l.*1.
Proof.
  induction l as [|[k' v] l IH]; simpl.
  - split; [intros _; apply not_elem_of_nil | done].
  - rewrite not_elem_of_cons. destruct (decide (k' = k)) as [->|Hne].
    + split; [done | intros [? _]; done].
    + rewrite IH. split; [intros ?; split; [congruence | done] | intros [_ ?]; done].
Qed.

Lemma lru_find_app k l1 l2 :
  lru_find k (l1 ++ l2) =
  match lru_find k l1 with Some v => Some v | None => lru_find k l2 end.
Proof.
  induction l1 as [|[k' v] l1 IH]; simpl; [done|].
  destruct (decide (k' = k)); done.
Qed.

Lemma lru_find_remove_eq k l : lru_find k (lru_remove k l) = None.
Proof.
  induction l as [|[k' v] l IH]; simpl; [done|].
  destruct (decide (k' = k)) as [->|Hne]; simpl; [done|].
  destruct (decide (k' = k)); done.
Qed.

Lemma lru_find_remove_ne k k' l : k <> k' -> lru_find k' (lru_remove k l) = lru_find k' l.
Proof.
  intros Hne. induction l as [|[k0 v] l IH]; simpl; [done|].
  destruct (decide (k0 = k)) as [->|Hk0]; simpl.
  - destruct (decide (k = k')); done.
  - destruct (decide (k0 = k')); done.
Qed.

Lemma lru_remove_absent k l : k ∉ l.*1 -> lru_remove k l = l.
Proof.
  induction l as [|[k' v] l IH]; simpl; [done|].
  rewrite not_elem_of_cons. intros [Hne Hl].
  destruct (decide (k' = k)); [congruence|]. by rewrite IH.
Qed.

Lemma lru_remove_app k l1 l2 : lru_remove k (l1 ++ l2) = lru_remove k l1 ++ lru_remove k l2.
Proof.
  induction l1 as [|[k' v] l1 IH]; simpl; [done|].
  destruct (decide (k' = k)); simpl; by rewrite IH.
Qed.

Lemma lru_remove_elem k k' l : k' ∈ (lru_remove k l).*1 <-> k' <> k /\ k' ∈ l.*1.
Proof.
  induction l as [|[k0 v] l IH]; simpl.
  - split; [intros H; by apply elem_of_nil in H | intros [_ H]; done].
  - destruct (decide (k0 = k)) as [->|Hk0]; simpl; rewrite ?elem_of_cons, IH.
    + split; [intros [? ?]; auto | intros [? [?|?]]; [congruence | auto]].
    + split; [intros [->|[? ?]]; auto | intros [? [?|?]]; auto].
Qed.

Lemma lru_remove_NoDup k l : NoDup l.*1 -> NoDup (lru_remove k l).*1.
Proof.
  induction l as [|[k' v] l IH]; simpl; [done|].
  rewrite NoDup_cons. intros [Hk' Hl].
  destruct (decide (k' = k)); simpl; [auto|].
  rewrite NoDup_cons. split; [|auto].
  rewrite lru_remove_elem. tauto.
Qed.

Lemma lru_remove_length_le k l : (length (lru_remove k l) <= length l)%nat.
Proof.
  induction l as [|[k' v] l IH]; simpl; [done|].
  destruct (decide (k' = k)); simpl; lia.
Qed.

Lemma lru_remove_length_lt k v l :
  lru_find k l = Some v -> (length (lru_remove k l) < length l)%nat.
Proof.
  induction l as [|[k' v'] l IH]; simpl; [done|].
  destruct (decide (k' = k)); simpl; intros H.
  - pose proof (lru_remove_length_le k l). lia.
  - apply IH in H. lia.
Qed.

Lemma lru_remove_Forall (P : string * string -> Prop) k l :
  Forall P l -> Forall P (lru_remove k l).
Proof.
  induction 1 as [|[k' v] l HP Hl IH]; simpl; [done|].
  destruct (decide (k' = k)); [done | by constructor].
Qed.

Lemma lru_find_Forall (P : string * string -> Prop) k v l :
  Forall P l -> lru_find k l = Some v -> P (k, v).
Proof.
  induction 1 as [|[k' v'] l HP Hl IH]; simpl; [done|].
  destruct (decide (k' = k)) as [->|]; [congruence | done].
Qed.

Lemma removelast_snoc l (x : string * string) : removelast (l ++ [x]) = l.
Proof. apply removelast_last. Qed.

Lemma removelast_length_pred l : length (removelast l) = pred (length l).
Proof.
  induction l as [|x [|y l] IH]; simpl in *; [done..|]. by rewrite IH.
Qed.

Lemma removelast_sublist l : removelast l `sublist_of` l.
Proof.
  induction l as [|x [|y l] IH]; simpl in *.
  - constructor.
  - apply sublist_nil_l.
  - by apply sublist_skip.
Qed.

Lemma removelast_NoDup l : NoDup l.*1 -> NoDup (removelast l).*1.
Proof.
  intros H. eapply sublist_NoDup; [exact H|]. apply fmap_sublist, removelast_sublist.
Qed.

Lemma removelast_Forall (P : string * string -> Prop) l :
  Forall P l -> Forall P (removelast l).
Proof.
  rewrite !Forall_forall. intros H x Hx. apply H.
  eapply elem_of_sublist; [exact Hx | apply removelast_sublist].
Qed.
End lru_lists.

(** ** The cache operations *)

Section lru_ops.
Implicit Types (c : LRU) (k v : string).

Lemma lru_New_inr size c :
  lru_New size = inr c -> 0 < size /\ c = {| lru_size := size; lru_items := [] |}.
Proof.
  unfold lru_New. destruct (decide (size <= 0)); [done|].
  intros [= <-]. split; [lia | done].
Qed.

Lemma lru_New_wf size c : lru_New size = inr c -> lru_wf c.
Proof.
  intros [Hpos ->]%lru_New_inr. split; unfold lru_Len, lru_keys; simpl; [lia.. | constructor].
Qed.

Lemma lru_Get_hit c k v :
  lru_find k (lru_items c) = Some v ->
  lru_Get c k =
  (v, true, {| lru_size := lru_size c; lru_items := (k, v) :: lru_remove k (lru_items c) |}).
Proof. unfold lru_Get. by intros ->. Qed.

Lemma lru_Get_miss c k : lru_find k (lru_items c) = None -> lru_Get c k = ("", false, c).
Proof. unfold lru_Get. by intros ->. Qed.

Lemma lru_Get_size c k : lru_size (lru_Get c k).2 = lru_size c.
Proof. unfold lru_Get. by destruct (lru_find k (lru_items c)). Qed.

Lemma lru_Add_size c k v : lru_size (lru_Add c k v) = lru_size c.
Proof. unfold lru_Add. by destruct (lru_find k (lru_items c)). Qed.

(** [Get] changes the order of the entries, never what the cache holds. *)
Lemma lru_find_Get c k k' :
  lru_find k' (lru_items (lru_Get c k).2) = lru_find k' (lru_items c).
Proof.
  unfold lru_Get. destruct (lru_find k (lru_items c)) as [v|] eqn:Hk; simpl; [|done].
  destruct (decide (k = k')) as [<-|Hne]; [done|]. by apply lru_find_remove_ne.
Qed.

Lemma lru_Get_wf c k : lru_wf c -> lru_wf (lru_Get c k).2.
Proof.
  intros [Hs Hl Hn]. unfold lru_Get.
  destruct (lru_find k (lru_items c)) as [v|] eqn:Hk; simpl; [|done].
  split; unfold lru_Len, lru_keys in *; simpl; [done | |].
  - apply lru_remove_length_lt in Hk. lia.
  - apply NoDup_cons. split; [|by apply lru_remove_NoDup].
    rewrite lru_remove_elem. tauto.
Qed.

Lemma lru_Add_wf c k v : lru_wf c -> lru_wf (lru_Add c k v).
Proof.
  intros [Hs Hl Hn]. unfold lru_Add.
  destruct (lru_find k (lru_items c)) as [v'|] eqn:Hk; cbv zeta.
  - split; unfold lru_Len, lru_keys in *; simpl; [done | |].
    + apply lru_remove_length_lt in Hk. lia.
    + apply NoDup_cons. split; [|by apply lru_remove_NoDup].
      rewrite lru_remove_elem. tauto.
  - assert (NoDup ((k, v) :: lru_items c).*1) as Hn'.
    { simpl. apply NoDup_cons. split; [by apply lru_find_None | done]. }
    assert (length ((k, v) :: lru_items c) = S (length (lru_items c))) as Hlen by done.
    revert Hn' Hlen. generalize ((k, v) :: lru_items c). intros l Hn' Hlen.
    unfold lru_Len, lru_keys in *.
    destruct (decide _) as [Hfull|Hroom]; split; unfold lru_Len, lru_keys;
      cbn [lru_items lru_size]; [done | | by apply removelast_NoDup | done | | done].
    + rewrite removelast_length_pred. lia.
    + lia.
Qed.

(** With a positive capacity the entry just added is in the cache. *)
Lemma lru_find_Add_eq c k v :
  0 < lru_size c -> lru_find k (lru_items (lru_Add c k v)) = Some v.
Proof.
  intros Hs. unfold lru_Add.
  destruct (lru_find k (lru_items c)) as [v'|] eqn:Hk; simpl.
  - by destruct (decide (k = k)).
  - destruct (decide _) as [Hfull|Hroom]; simpl.
    + destruct (lru_items c) as [|x r]; simpl in *; [lia|].
      by destruct (decide (k = k)).
    + by destruct (decide (k = k)).
Qed.

(** Adding to a cache with room keeps every entry. *)
Lemma lru_Add_room c k v :
  k ∉ lru_keys c -> lru_Len c < lru_size c ->
  lru_items (lru_Add c k v) = (k, v) :: lru_items c.
Proof.
  intros Hk%lru_find_None Hroom. unfold lru_Add, lru_Len in *. rewrite Hk. simpl.
  destruct (decide _) as [Hfull|_]; [simpl in Hfull; lia | done].
Qed.

(** Adding a new key to a full cache drops the entry at the back, and
    only that one. *)
Lemma lru_Add_evict c k v :
  0 < lru_size c -> k ∉ lru_keys c -> lru_Len c = lru_size c ->
  lru_items (lru_Add c k v) = (k, v) :: removelast (lru_items c).
Proof.
  intros Hs Hk%lru_find_None Hfull. unfold lru_Add, lru_Len in *. rewrite Hk.
  cbn [lru_items lru_size].
  destruct (decide _) as [_|Hroom]; [|cbn [length] in Hroom; lia].
  destruct (lru_items c) as [|x r]; [simpl in Hfull; lia | done].
Qed.

Lemma lru_Get_nonempty c k : lru_nonempty c -> lru_nonempty (lru_Get c k).2.
Proof.
  unfold lru_nonempty, lru_Get. intros H.
  destruct (lru_find k (lru_items c)) as [v|] eqn:Hk; simpl; [|done].
  constructor; [apply (lru_find_Forall _ _ _ _ H Hk) | by apply lru_remove_Forall].
Qed.

Lemma lru_Add_nonempty c k v : v <> "" -> lru_nonempty c -> lru_nonempty (lru_Add c k v).
Proof.
  unfold lru_nonempty, lru_Add. intros Hv H.
  destruct (lru_find k (lru_items c)) as [v'|] eqn:Hk; cbn [lru_items].
  - constructor; [done | by apply lru_remove_Forall].
  - assert (Forall (fun p : string * string => p.2 <> "") ((k, v) :: lru_items c)) as H'
      by (by constructor).
    destruct (decide _); [by apply removelast_Forall | done].
Qed.

End lru_ops.

(** ** Running the tiers *)

Lemma filter_eta (f : ShardRouterFilter) c :
  memoryCache f = Some c ->
  {| config := config f; memoryCache := Some c; redisClient := redisClient f;
     s3Client := s3Client f; currentShardID := currentShardID f |} = f.
Proof. destruct f; simpl; by intros ->. Qed.

Lemma world_eta (w : World) :
  {| redis_kv := redis_kv w; redis_get_err := redis_get_err w;
     redis_set_err := redis_set_err w; s3_get := s3_get w |} = w.
Proof. by destruct w. Qed.

Lemma after_nil (s : St) : after s (st_filter s) (st_world s) [] [] = s.
Proof. destruct s. unfold after. simpl. by rewrite !app_nil_r. Qed.

Lemma after_after s f w cs ls f' w' cs' ls' :
  after (after s f w cs ls) f' w' cs' ls' = after s f' w' (cs ++ cs') (ls ++ ls').
Proof. unfold after. simpl. by rewrite !app_assoc. Qed.

Section tiers.
Variable tenantID : string.
Variable st : St.
Local Abbreviation f := (st_filter st).
Local Abbreviation w := (st_world st).

Lemma lookupInMemoryCache_hit shardID :
  local_hit f tenantID shardID ->
  exists c ls, memoryCache f = Some c /\
    lookupInMemoryCache tenantID st =
    ((shardID, true), after st (with_cache f (lru_Get c tenantID).2) w [MemGet tenantID] ls).
Proof.
  intros (c & Hc & Hfind). exists c. eexists. split; [done|].
  unfold lookupInMemoryCache. run_monad. rewrite Hc.
  rewrite (lru_Get_hit _ _ _ Hfind). run_monad. reflexivity.
Qed.

Lemma lookupInMemoryCache_miss :
  local_miss f tenantID ->
  exists ls,
    lookupInMemoryCache tenantID st =
    (("", false),
     after st f w (match memoryCache f with Some _ => [MemGet tenantID] | None => [] end) ls).
Proof.
  unfold local_miss. intros Hmiss. eexists.
  unfold lookupInMemoryCache. run_monad.
  destruct (memoryCache f) as [c|] eqn:Hc.
  - rewrite (lru_Get_miss _ _ Hmiss). run_monad.
    rewrite (filter_eta _ _ Hc). reflexivity.
  - unfold after. rewrite (app_nil_r (st_calls st)). reflexivity.
Qed.

Lemma lookupInRedisCache_hit shardID :
  shared_hit f w tenantID shardID ->
  exists ls,
    lookupInRedisCache tenantID st =
    ((shardID, None), after st f w [RedisGET (redis_key f tenantID)] ls).
Proof.
  intros ([opts Ho] & Herr & Hkv & _). eexists.
  unfold lookupInRedisCache, redis_key in *. run_monad. rewrite Ho. cbn.
  rewrite Herr, Hkv. cbn. reflexivity.
Qed.

Lemma lookupInRedisCache_miss :
  shared_miss f w tenantID ->
  exists ls,
    lookupInRedisCache tenantID st =
    (("", None), after st f w [RedisGET (redis_key f tenantID)] ls).
Proof.
  intros ([opts Ho] & Herr & Hkv).
  unfold lookupInRedisCache, redis_key in *. run_monad. rewrite Ho. cbn.
  destruct Herr as [Herr|Herr]; rewrite Herr; cbn.
  - destruct (Hkv Herr) as [Hk|Hk]; rewrite Hk; cbn; eexists; reflexivity.
  - eexists; reflexivity.
Qed.

Lemma lookupInRedisCache_error e :
  shared_error f w e ->
  exists ls,
    lookupInRedisCache tenantID st =
    (("", Some e),
     after st f w
       (match redisClient f with Some _ => [RedisGET (redis_key f tenantID)] | None => [] end)
       ls).
Proof.
  intros [[Ho ->]|([opts Ho] & Herr & Hne)];
    unfold lookupInRedisCache, redis_key in *; run_monad; rewrite Ho; cbn.
  - exists []. by rewrite after_nil.
  - rewrite Herr. cbn. destruct (decide (e = redis_Nil)); [done|]. cbn.
    eexists; reflexivity.
Qed.

Lemma cacheInRedis_run shardID :
  cacheInRedis tenantID shardID st =
  (set_error f w,
   after st f (with_kv w (kv_after_set tenantID f w shardID)) (set_calls tenantID f shardID)
     (match redisClient f, redis_set_err w with
      | Some _, Some e =>
          [(Warn, "Failed to cache in Redis for tenant " +:+ tenantID +:+ ": " +:+ Error e)]
      | Some _, None =>
          [(Debug, "Cached in Redis: tenant " +:+ tenantID +:+ " -> shard " +:+ shardID)]
      | None, _ => []
      end)).
Proof.
  unfold cacheInRedis, kv_after_set, set_calls, set_error, redis_key. run_monad.
  destruct (redisClient f) as [opts|]; cbn.
  - destruct (redis_set_err w) as [e|] eqn:He; cbn.
    + unfold after, with_kv. rewrite world_eta. reflexivity.
    + reflexivity.
  - unfold with_kv. by rewrite world_eta, after_nil.
Qed.

Lemma cacheInMemory_run shardID :
  cacheInMemory tenantID shardID st =
  (tt,
   match memoryCache f with
   | Some c =>
       after st (with_cache f (lru_Add c tenantID shardID)) w [MemAdd tenantID shardID]
         [(Debug, "Cached in memory: tenant " +:+ tenantID +:+ " -> shard " +:+ shardID)]
   | None => st
   end).
Proof.
  unfold cacheInMemory. run_monad. destruct (memoryCache f) as [c|]; reflexivity.
Qed.

Lemma lookupInS3_failure e :
  store_failure f w e ->
  exists ls,
    lookupInS3 tenantID st =
    (("", Some e),
     after st f w
       (match s3Client f with
        | Some _ => [S3GetObject (S3Bucket (config f)) (S3Key (config f))]
        | None => []
        end) ls).
Proof.
  unfold store_failure, store_answer.
  intros [[Hc ->]|([cl Hc] & Hout)]; unfold lookupInS3; run_monad; rewrite Hc; cbn.
  - exists []. by rewrite after_nil.
  - destruct Hout as [Hout|[Hout|Hout]]; rewrite Hout; cbn; eexists; reflexivity.
Qed.

Lemma lookupInS3_parsed d :
  is_Some (s3Client f) -> store_answer f w = Parsed d ->
  exists ls,
    lookupInS3 tenantID st =
    ((default "" (searchMappings tenantID (Mappings d)), None),
     after st f w [S3GetObject (S3Bucket (config f)) (S3Key (config f))] ls).
Proof.
  unfold store_answer. intros [cl Hc] Hout. unfold lookupInS3. run_monad.
  rewrite Hc. cbn. rewrite Hout.
  destruct (searchMappings tenantID (Mappings d)); cbn; eexists; reflexivity.
Qed.
End tiers.

(** ** The paths through [orchestratedLookup] *)

Lemma after_eq s f w cs cs' ls ls' :
  cs = cs' -> ls = ls' -> after s f w cs ls = after s f w cs' ls'.
Proof. by intros -> ->. Qed.

Lemma logf_run lvl msg (s : St) :
  logf lvl msg s = (tt, after s (st_filter s) (st_world s) [] [(lvl, msg)]).
Proof. unfold logf, after. by rewrite app_nil_r. Qed.

Lemma bind_run {A B} (m : M A) (k : A -> M B) (s s' : St) (a : A) :
  m s = (a, s') -> bind m k s = k a s'.
Proof. unfold bind. by intros ->. Qed.

Section paths.
Variable tenantID : string.
Variable st : St.
Local Abbreviation f := (st_filter st).
Local Abbreviation w := (st_world st).

Lemma tier3_failure e :
  store_failure f w e ->
  exists ls,
    orchestratedLookup_tier3 tenantID st = (("", Some e), after st f w (s3_calls f) ls).
Proof.
  intros Hs. destruct (lookupInS3_failure tenantID st e Hs) as [ls Hrun].
  unfold orchestratedLookup_tier3. rewrite (bind_run _ _ _ _ _ Hrun). run_monad.
  eexists. unfold after, s3_calls. cbn. rewrite <- app_assoc. reflexivity.
Qed.

Lemma tier3_not_mapped d :
  is_Some (s3Client f) -> store_answer f w = Parsed d ->
  default "" (searchMappings tenantID (Mappings d)) = "" ->
  exists ls,
    orchestratedLookup_tier3 tenantID st =
    (("", Some (fmt_Errorf "no shard mapping found for tenant: " tenantID)),
     after st f w (s3_calls f) ls).
Proof.
  intros Hc Hd Hno. destruct (lookupInS3_parsed tenantID st d Hc Hd) as [ls Hrun].
  unfold orchestratedLookup_tier3. rewrite (bind_run _ _ _ _ _ Hrun), Hno. run_monad.
  destruct Hc as [cl Hc]. unfold s3_calls. rewrite Hc. eexists. reflexivity.
Qed.

Lemma tier3_found d shardID :
  is_Some (s3Client f) -> store_answer f w = Parsed d ->
  searchMappings tenantID (Mappings d) = Some shardID -> shardID <> "" ->
  exists ls,
    orchestratedLookup_tier3 tenantID st =
    ((shardID, None),
     after st (cache_added f tenantID shardID)
       (with_kv w (kv_after_set tenantID f w shardID))
       (s3_calls f ++ set_calls tenantID f shardID ++ mem_add_calls f tenantID shardID) ls)
    /\ (forall e, set_error f w = Some e ->
                  (Warn, "Failed to cache in Redis: " +:+ Error e) ∈ ls).
Proof.
  intros Hc Hd Hfind Hne. destruct (lookupInS3_parsed tenantID st d Hc Hd) as [ls Hrun].
  unfold orchestratedLookup_tier3. rewrite (bind_run _ _ _ _ _ Hrun), Hfind.
  cbn [default from_option id].
  destruct (decide (shardID <> "")) as [_|]; [|done].
  rewrite (bind_run _ _ _ _ _ (cacheInRedis_run _ _ _)). cbn [st_filter st_world after].
  destruct Hc as [cl Hc]. unfold s3_calls, mem_add_calls, cache_added. rewrite Hc.
  destruct (set_error f w) as [e|] eqn:Herr.
  - rewrite after_after, (bind_run (LogWarnf _) _ _ _ _ (logf_run _ _ _)).
    rewrite (bind_run _ _ _ _ _ (cacheInMemory_run _ _ _)). unfold ret.
    cbn [st_filter st_world st_calls st_logs after].
    destruct (memoryCache f) as [c|]; rewrite ?after_after; (eexists; split;
      [f_equal; try (apply after_eq; [by rewrite <- ?app_assoc, ?app_nil_r | reflexivity])|]);
      intros e' [= <-]; rewrite !elem_of_app, !list_elem_of_singleton; auto.
  - rewrite after_after, (bind_run (ret _) _ _ _ _ eq_refl).
    rewrite (bind_run _ _ _ _ _ (cacheInMemory_run _ _ _)). unfold ret.
    cbn [st_filter st_world st_calls st_logs after].
    destruct (memoryCache f) as [c|]; rewrite ?after_after; (eexists; split;
      [f_equal; try (apply after_eq; [by rewrite <- ?app_assoc, ?app_nil_r | reflexivity])|]);
      intros e' [=].
Qed.

Lemma orchestratedLookup_local_hit shardID :
  local_hit f tenantID shardID ->
  exists c ls, memoryCache f = Some c /\
    orchestratedLookup tenantID st =
    ((shardID, None), after st (with_cache f (lru_Get c tenantID).2) w [MemGet tenantID] ls).
Proof.
  intros Hhit. destruct (lookupInMemoryCache_hit tenantID st shardID Hhit) as (c & ls & Hc & Hrun).
  exists c, ls. split; [done|].
  unfold orchestratedLookup. by rewrite (bind_run _ _ _ _ _ Hrun).
Qed.

Lemma orchestratedLookup_shared_hit shardID :
  local_miss f tenantID -> shared_hit f w tenantID shardID ->
  exists ls,
    orchestratedLookup tenantID st =
    ((shardID, None),
     after st (cache_added f tenantID shardID) w
       (mem_get_calls f tenantID ++ redis_get_calls f tenantID
        ++ mem_add_calls f tenantID shardID) ls).
Proof.
  intros Hmiss Hhit. destruct (lookupInMemoryCache_miss tenantID st Hmiss) as [ls1 Hrun1].
  unfold orchestratedLookup. rewrite (bind_run _ _ _ _ _ Hrun1).
  edestruct (lookupInRedisCache_hit tenantID) as [ls2 Hrun2];
    [|rewrite (bind_run _ _ _ _ _ Hrun2)]; [exact Hhit|].
  destruct Hhit as ([opts Ho] & _ & _ & Hne).
  destruct (decide (shardID <> "")) as [_|]; [|done].
  rewrite (bind_run _ _ _ _ _ (cacheInMemory_run _ _ _)). unfold ret.
  cbn [st_filter st_world after]. rewrite after_after.
  unfold cache_added, mem_get_calls, redis_get_calls, mem_add_calls. rewrite Ho.
  destruct (memoryCache f) as [c|]; rewrite ?after_after; eexists; f_equal;
    try (apply after_eq; [by rewrite <- ?app_assoc, ?app_nil_r | reflexivity]).
Qed.

Lemma orchestratedLookup_fallthrough :
  local_miss f tenantID -> shared_no_hit f w tenantID ->
  exists ls,
    orchestratedLookup tenantID st =
    orchestratedLookup_tier3 tenantID
      (after st f w (mem_get_calls f tenantID ++ redis_get_calls f tenantID) ls).
Proof.
  intros Hmiss Hno. destruct (lookupInMemoryCache_miss tenantID st Hmiss) as [ls1 Hrun1].
  unfold orchestratedLookup. rewrite (bind_run _ _ _ _ _ Hrun1).
  unfold mem_get_calls, redis_get_calls.
  destruct Hno as [Hno|[e Herr]].
  - edestruct (lookupInRedisCache_miss tenantID) as [ls2 Hrun2];
      [|rewrite (bind_run _ _ _ _ _ Hrun2)]; [exact Hno|].
    destruct Hno as ([opts Ho] & _). cbn [st_filter st_world after]. rewrite Ho.
    destruct (decide ("" <> "")) as [|_]; [done|].
    rewrite after_after. eexists; reflexivity.
  - edestruct (lookupInRedisCache_error tenantID) as [ls2 Hrun2];
      [|rewrite (bind_run _ _ _ _ _ Hrun2)]; [exact Herr|].
    rewrite (bind_run (LogWarnf _) _ _ _ _ (logf_run _ _ _)).
    cbn [st_filter st_world after]. rewrite !after_after, app_nil_r.
    eexists; reflexivity.
Qed.
End paths.

(** ** The search through the mapping table *)

Section search.
Implicit Types (mappings pre post : list TenantShardMapping) (m : TenantShardMapping).

Lemma searchMappings_None tenantID mappings :
  searchMappings tenantID mappings = None <-> tenantID ∉ TenantID <$> mappings.
Proof.
  induction mappings as [|m l IH]; simpl.
  - split; [intros _; apply not_elem_of_nil | done].
  - rewrite not_elem_of_cons. destruct (decide (TenantID m = tenantID)) as [Heq|Hne].
    + split; [done | intros [? _]; congruence].
    + rewrite IH. split; [intros ?; split; [congruence | done] | intros [_ ?]; done].
Qed.

Lemma searchMappings_app tenantID pre post :
  tenantID ∉ TenantID <$> pre ->
  searchMappings tenantID (pre ++ post) = searchMappings tenantID post.
Proof.
  induction pre as [|m l IH]; simpl; [done|].
  rewrite not_elem_of_cons. intros [Hne Hl].
  destruct (decide (TenantID m = tenantID)); [congruence | auto].
Qed.

(** The entry found is the first one for the tenant, in document order. *)
Lemma searchMappings_first tenantID pre m post :
  tenantID ∉ TenantID <$> pre -> TenantID m = tenantID ->
  searchMappings tenantID (pre ++ m :: post) = Some (ShardID m).
Proof.
  intros Hpre Hm. rewrite (searchMappings_app _ _ _ Hpre). simpl.
  destruct (decide (TenantID m = tenantID)); [done | congruence].
Qed.

Lemma searchMappings_Some tenantID mappings shardID :
  searchMappings tenantID mappings = Some shardID ->
  exists pre m post,
    mappings = pre ++ m :: post /\ (tenantID ∉ TenantID <$> pre) /\
    TenantID m = tenantID /\ ShardID m = shardID.
Proof.
  induction mappings as [|m l IH]; simpl; [done|].
  destruct (decide (TenantID m = tenantID)) as [Heq|Hne].
  - intros [= <-]. exists [], m, l. repeat split; [apply not_elem_of_nil | done].
  - intros (pre & m' & post & -> & Hpre & Hm' & Hs)%IH.
    exists (m :: pre), m', post. repeat split; [|done..].
    simpl. rewrite not_elem_of_cons. split; [congruence | done].
Qed.

(** When all the entries of a tenant name the same shard, that shard is
    the one found. *)
Lemma searchMappings_agree tenantID shardID mappings :
  {| TenantID := tenantID; ShardID := shardID |} ∈ mappings ->
  (forall m, m ∈ mappings -> TenantID m = tenantID -> ShardID m = shardID) ->
  searchMappings tenantID mappings = Some shardID.
Proof.
  intros Hin Hall.
  destruct (searchMappings tenantID mappings) as [s|] eqn:Hs.
  - apply searchMappings_Some in Hs as (pre & m & post & -> & _ & Hm & <-).
    f_equal. apply Hall; [|done]. rewrite elem_of_app, elem_of_cons. auto.
  - apply searchMappings_None in Hs. exfalso. apply Hs.
    apply list_elem_of_fmap. eexists; split; [|exact Hin]. done.
Qed.
End search.

(** ** Every call takes one of five paths *)

Lemma local_cases f tenantID : (exists shardID, local_hit f tenantID shardID) \/ local_miss f tenantID.
Proof.
  unfold local_hit, local_miss. destruct (memoryCache f) as [c|]; [|by right].
  destruct (lru_find tenantID (lru_items c)) as [v|] eqn:Hv; [left | by right].
  exists v, c. done.
Qed.

Lemma local_hit_miss f tenantID shardID :
  local_hit f tenantID shardID -> local_miss f tenantID -> False.
Proof. unfold local_miss. intros (c & -> & Hfind). congruence. Qed.

Lemma shared_cases f w tenantID :
  (exists shardID, shared_hit f w tenantID shardID) \/ shared_no_hit f w tenantID.
Proof.
  unfold shared_hit, shared_no_hit, shared_miss, shared_error.
  destruct (redisClient f) as [opts|] eqn:Ho.
  - destruct (redis_get_err w) as [e|] eqn:He.
    + right. destruct (decide (e = redis_Nil)) as [->|Hne].
      * left. split; [eauto|]. split; [auto | done].
      * right. exists e. right. split; [eauto | done].
    + destruct (redis_kv w !! redis_key f tenantID) as [v|] eqn:Hv.
      * destruct (decide (v = "")) as [->|Hne].
        -- right. left. split; [eauto|]. split; [auto | auto].
        -- left. exists v. split; [eauto | done].
      * right. left. split; [eauto|]. split; [auto | auto].
  - right. right. eexists. left. done.
Qed.

Lemma store_cases f w :
  (exists e, store_failure f w e) \/
  (is_Some (s3Client f) /\ exists d, store_answer f w = Parsed d).
Proof.
  unfold store_failure. destruct (s3Client f) as [cl|] eqn:Hc.
  - destruct (store_answer f w) as [e|e|e|d] eqn:Hout.
    + left. exists e. right. split; [eauto | auto].
    + left. exists e. right. split; [eauto | auto].
    + left. exists e. right. split; [eauto | auto].
    + right. split; [eauto|]. by exists d.
  - left. eexists. left. done.
Qed.

(** The code follows the relation, on every input. *)
Lemma orchestratedLookup_resolution f w tenantID :
  resolution f w tenantID
    (orchestratedLookup tenantID (start f w)).1
    (st_filter (orchestratedLookup tenantID (start f w)).2)
    (st_world (orchestratedLookup tenantID (start f w)).2)
    (st_calls (orchestratedLookup tenantID (start f w)).2).
Proof.
  destruct (local_cases f tenantID) as [[s Hhit]|Hmiss].
  { destruct (orchestratedLookup_local_hit tenantID (start f w) s Hhit) as (c & ls & Hc & ->).
    destruct Hhit as (c' & Hc' & Hfind). cbn in *. simplify_eq. by constructor. }
  destruct (shared_cases f w tenantID) as [[s Hhit]|Hno].
  { destruct (orchestratedLookup_shared_hit tenantID (start f w) s Hmiss Hhit) as [ls ->].
    cbn. by constructor. }
  destruct (orchestratedLookup_fallthrough tenantID (start f w) Hmiss Hno) as [ls ->].
  destruct (store_cases f w) as [[e Hfail]|[Hc [d Hd]]].
  { edestruct (tier3_failure tenantID) as [ls' ->]; [exact Hfail|].
    cbn. rewrite <- app_assoc. by apply res_failure. }
  destruct (searchMappings tenantID (Mappings d)) as [s|] eqn:Hs;
    [destruct (decide (s = "")) as [->|Hne]|].
  - edestruct (tier3_not_mapped tenantID) as [ls' ->]; [exact Hc | exact Hd | by rewrite Hs |].
    cbn. rewrite <- app_assoc. eapply res_not_mapped; [done.. | by rewrite Hs].
  - edestruct (tier3_found tenantID) as [ls' [-> _]]; [exact Hc | exact Hd | exact Hs | exact Hne |].
    cbn. rewrite <- !app_assoc. by eapply res_found.
  - edestruct (tier3_not_mapped tenantID) as [ls' ->]; [exact Hc | exact Hd | by rewrite Hs |].
    cbn. rewrite <- app_assoc. eapply res_not_mapped; [done.. | by rewrite Hs].
Qed.

(** ** Filters the program can hold *)

Lemma filterFactory_inr conf sess_err f :
  filterFactory conf sess_err = inr f ->
  0 < MemoryCacheSize conf /\ sess_err = None /\ config f = conf /\
  memoryCache f = Some {| lru_size := MemoryCacheSize conf; lru_items := [] |} /\
  is_Some (redisClient f) /\ is_Some (s3Client f).
Proof.
  unfold filterFactory.
  destruct (lru_New (MemoryCacheSize conf)) as [err|c] eqn:Hnew; [done|].
  apply lru_New_inr in Hnew as [Hpos ->].
  destruct sess_err as [err|]; [done|]. intros [= <-]. cbn. eauto 10.
Qed.

Lemma filterFactory_ok conf sess_err f : filterFactory conf sess_err = inr f -> filter_ok f.
Proof.
  intros (Hpos & _ & Hconf & Hc & Hr & Hs)%filterFactory_inr. split; [|done..].
  eexists. split; [exact Hc|]. rewrite Hconf.
  split; [|split; [constructor | done]].
  split; unfold lru_Len, lru_keys; cbn; [lia.. | constructor].
Qed.

Lemma with_cache_ok f c :
  filter_ok f -> lru_wf c -> lru_nonempty c -> lru_size c = MemoryCacheSize (config f) ->
  filter_ok (with_cache f c).
Proof. intros [_ Hr Hs] Hwf Hne Hsz. split; cbn; eauto. Qed.

Lemma cache_added_ok f tenantID shardID :
  filter_ok f -> shardID <> "" -> filter_ok (cache_added f tenantID shardID).
Proof.
  intros Hok Hne. pose proof Hok as [(c & Hc & Hwf & Hnon & Hsz) _ _].
  unfold cache_added. rewrite Hc. apply with_cache_ok; [done | | |].
  - by apply lru_Add_wf.
  - by apply lru_Add_nonempty.
  - by rewrite lru_Add_size.
Qed.

Lemma local_hit_nonempty f tenantID shardID :
  filter_ok f -> local_hit f tenantID shardID -> shardID <> "".
Proof.
  intros [(c & Hc & _ & Hnon & _) _ _] (c' & Hc' & Hfind). simplify_eq.
  apply (lru_find_Forall _ _ _ _ Hnon Hfind).
Qed.

Lemma resolution_ok f w tenantID r f' w' cs :
  resolution f w tenantID r f' w' cs -> filter_ok f -> filter_ok f'.
Proof.
  intros Hres Hok. destruct Hres as [c s Hc Hfind|s _ Hhit| | |d s _ _ _ _ _ Hne]; try done.
  - pose proof Hok as [(c' & Hc' & Hwf & Hnon & Hsz) _ _]. simplify_eq.
    apply with_cache_ok; [done | | |].
    + by apply lru_Get_wf.
    + by apply lru_Get_nonempty.
    + by rewrite lru_Get_size.
  - apply cache_added_ok; [done|]. by destruct Hhit as (_ & _ & _ & ?).
  - by apply cache_added_ok.
Qed.

Lemma reachable_ok f : reachable f -> filter_ok f.
Proof.
  induction 1 as [conf e f Hnew|f w t _ IH].
  - by eapply filterFactory_ok.
  - eapply resolution_ok; [apply orchestratedLookup_resolution | exact IH].
Qed.

(** The configuration of a filter never changes. *)
Lemma resolution_config f w tenantID r f' w' cs :
  resolution f w tenantID r f' w' cs -> config f' = config f.
Proof.
  destruct 1; try done; unfold cache_added; by destruct (memoryCache f).
Qed.

(** ** The three outcomes of the store tier, from a fresh call *)

Section from_start.
Variables (f : ShardRouterFilter) (w : World) (tenantID : string).
Hypothesis Hlocal : local_miss f tenantID.
Hypothesis Hshared : shared_no_hit f w tenantID.

Lemma lookup_store_failure e :
  store_failure f w e ->
  exists ls,
    orchestratedLookup tenantID (start f w) =
    (("", Some e),
     {| st_filter := f; st_world := w;
        st_calls := mem_get_calls f tenantID ++ redis_get_calls f tenantID ++ s3_calls f;
        st_logs := ls |}).
Proof.
  intros Hfail.
  destruct (orchestratedLookup_fallthrough tenantID (start f w) Hlocal Hshared) as [ls ->].
  edestruct (tier3_failure tenantID) as [ls' ->]; [exact Hfail|].
  eexists. unfold after. cbn. by rewrite <- app_assoc.
Qed.

Lemma lookup_not_mapped d :
  is_Some (s3Client f) -> store_answer f w = Parsed d ->
  default "" (searchMappings tenantID (Mappings d)) = "" ->
  exists ls,
    orchestratedLookup tenantID (start f w) =
    (("", Some (fmt_Errorf "no shard mapping found for tenant: " tenantID)),
     {| st_filter := f; st_world := w;
        st_calls := mem_get_calls f tenantID ++ redis_get_calls f tenantID ++ s3_calls f;
        st_logs := ls |}).
Proof.
  intros Hc Hd Hno.
  destruct (orchestratedLookup_fallthrough tenantID (start f w) Hlocal Hshared) as [ls ->].
  edestruct (tier3_not_mapped tenantID) as [ls' ->]; [exact Hc | exact Hd | exact Hno |].
  eexists. unfold after. cbn. by rewrite <- app_assoc.
Qed.

Lemma lookup_found d shardID :
  is_Some (s3Client f) -> store_answer f w = Parsed d ->
  searchMappings tenantID (Mappings d) = Some shardID -> shardID <> "" ->
  exists ls,
    orchestratedLookup tenantID (start f w) =
    ((shardID, None),
     {| st_filter := cache_added f tenantID shardID;
        st_world := with_kv w (kv_after_set tenantID f w shardID);
        st_calls := mem_get_calls f tenantID ++ redis_get_calls f tenantID ++ s3_calls f
                    ++ set_calls tenantID f shardID ++ mem_add_calls f tenantID shardID;
        st_logs := ls |})
    /\ (forall e, set_error f w = Some e ->
                  (Warn, "Failed to cache in Redis: " +:+ Error e) ∈ ls).
Proof.
  intros Hc Hd Hfind Hne.
  destruct (orchestratedLookup_fallthrough tenantID (start f w) Hlocal Hshared) as [ls ->].
  edestruct (tier3_found tenantID) as [ls' [-> Hlog]];
    [exact Hc | exact Hd | exact Hfind | exact Hne |].
  eexists. split.
  - unfold after. cbn. by rewrite <- !app_assoc.
  - intros e He. rewrite elem_of_app. right. by apply Hlog.
Qed.
End from_start.

Lemma shared_hit_no_hit f w tenantID shardID :
  shared_hit f w tenantID shardID -> shared_no_hit f w tenantID -> False.
Proof.
  intros ([o Ho] & Herr & Hkv & Hne) [(_ & Herr' & Hkv')|[e [[Ho' _]|(_ & Herr' & _)]]];
    [|congruence..].
  destruct (Hkv' Herr) as [?|?]; congruence.
Qed.

(** After [cacheInMemory] in a filter the program can hold, the cache
    answers for the tenant. *)
Lemma cache_added_hit f tenantID shardID :
  filter_ok f -> local_hit (cache_added f tenantID shardID) tenantID shardID.
Proof.
  intros [(c & Hc & Hwf & _) _ _]. unfold cache_added, local_hit. rewrite Hc. cbn.
  eexists. split; [done|]. apply lru_find_Add_eq, Hwf.
Qed.

Lemma cache_touched_hit f c tenantID shardID :
  lru_find tenantID (lru_items c) = Some shardID ->
  local_hit (with_cache f (lru_Get c tenantID).2) tenantID shardID.
Proof.
  intros Hfind. eexists. split; [done|]. by rewrite lru_find_Get.
Qed.

Lemma mem_get_calls_elem f tenantID c : c ∈ mem_get_calls f tenantID -> c = MemGet tenantID.
Proof.
  unfold mem_get_calls. destruct (memoryCache f); [by intros ?%list_elem_of_singleton|].
  by intros ?%elem_of_nil.
Qed.

Lemma redis_get_calls_elem f tenantID c :
  c ∈ redis_get_calls f tenantID -> c = RedisGET (redis_key f tenantID).
Proof.
  unfold redis_get_calls. destruct (redisClient f); [by intros ?%list_elem_of_singleton|].
  by intros ?%elem_of_nil.
Qed.

Lemma s3_calls_elem f c :
  c ∈ s3_calls f -> c = S3GetObject (S3Bucket (config f)) (S3Key (config f)).
Proof.
  unfold s3_calls. destruct (s3Client f); [by intros ?%list_elem_of_singleton|].
  by intros ?%elem_of_nil.
Qed.

Lemma query_calls_elem f tenantID c :
  c ∈ mem_get_calls f tenantID ++ redis_get_calls f tenantID ++ s3_calls f ->
  c = MemGet tenantID \/ c = RedisGET (redis_key f tenantID) \/
  c = S3GetObject (S3Bucket (config f)) (S3Key (config f)).
Proof.
  rewrite !elem_of_app.
  intros [?%mem_get_calls_elem|[?%redis_get_calls_elem|?%s3_calls_elem]]; auto.
Qed.

(** ** The concrete deployment *)

Lemma demo_filter_new : filterFactory demo_conf None = inr demo_filter.
Proof. reflexivity. Qed.

Lemma demo_filter_reachable : reachable demo_filter.
Proof. exact (reachable_new demo_conf None demo_filter eq_refl). Defined.

Lemma demo_local_miss tenantID : local_miss demo_filter tenantID.
Proof. reflexivity. Defined.

Lemma demo_shared_miss tenantID : shared_miss demo_filter demo_world tenantID.
Proof.
  split; [by eexists|]. split; [by left|]. intros _. left. apply lookup_empty.
Defined.

(** ** Unknown tenants *)

(** C1, as stated, fails: for a tenant that no tier knows, with every
    service up, the call returns a non-nil error. *)
Lemma unknown_tenant_returns_error :
  ("missing" ∉ TenantID <$> Mappings demo_table) /\
  local_miss demo_filter "missing" /\
  shared_miss demo_filter demo_world "missing" /\
  (orchestratedLookup "missing" (start demo_filter demo_world)).1 =
  ("", Some (errorString "no shard mapping found for tenant: missing")) /\
  (orchestratedLookup "missing" (start demo_filter demo_world)).1.2 <> None.
Proof.
  split; [|split; [apply demo_local_miss | split; [apply demo_shared_miss | split; [reflexivity|]]]].
  - apply searchMappings_None. reflexivity.
  - discriminate.
Qed.

(** C1, amended: for a tenant that is absent from the fetched table and
    that neither cache answers for, [orchestratedLookup] returns the empty
    shard with the error "no shard mapping found for tenant: <tenantID>",
    which the resolver builds itself, and leaves the memory cache and the
    shared cache as they were. *)
Theorem unknown_tenant_no_mapping_error f w tenantID d :
  local_miss f tenantID -> shared_no_hit f w tenantID ->
  is_Some (s3Client f) -> store_answer f w = Parsed d ->
  tenantID ∉ (TenantID <$> Mappings d) ->
  (orchestratedLookup tenantID (start f w)).1 =
    ("", Some (errorString ("no shard mapping found for tenant: " +:+ tenantID))) /\
  st_filter (orchestratedLookup tenantID (start f w)).2 = f /\
  st_world (orchestratedLookup tenantID (start f w)).2 = w /\
  (forall k v ttl, RedisSET k v ttl ∉ st_calls (orchestratedLookup tenantID (start f w)).2) /\
  (forall t v, MemAdd t v ∉ st_calls (orchestratedLookup tenantID (start f w)).2).
Proof.
  intros Hl Hs Hc Hd Habs. apply searchMappings_None in Habs.
  destruct (lookup_not_mapped f w tenantID Hl Hs d Hc Hd) as [ls ->]; [by rewrite Habs|].
  cbn. repeat split; try done.
  - intros k v ttl H. by apply query_calls_elem in H as [?|[?|?]].
  - intros t v H. by apply query_calls_elem in H as [?|[?|?]].
Qed.

Lemma unknown_tenant_no_mapping_error_witness :
  (orchestratedLookup "missing" (start demo_filter demo_world)).1 =
    ("", Some (errorString "no shard mapping found for tenant: missing")).
Proof.
  refine (proj1 (unknown_tenant_no_mapping_error demo_filter demo_world "missing" demo_table
                   (demo_local_miss _) (or_introl (demo_shared_miss _)) _ eq_refl _)).
  - by eexists.
  - apply searchMappings_None. reflexivity.
Defined.

(** ** Mapped tenants *)

(** C2: a tenant that the fetched table maps to [shardID] is resolved to
    [shardID], whichever of the two caches are cold: each cache either has
    no entry for the tenant (for the shared cache: a miss, an empty value
    or a failed lookup) or holds the shard of the table.  The shard of a
    mapping is a non-empty string. *)
Theorem mapped_tenant_found f w tenantID shardID d :
  (local_hit f tenantID shardID \/ local_miss f tenantID) ->
  (shared_hit f w tenantID shardID \/ shared_no_hit f w tenantID) ->
  is_Some (s3Client f) -> store_answer f w = Parsed d ->
  {| TenantID := tenantID; ShardID := shardID |} ∈ Mappings d ->
  (forall m, m ∈ Mappings d -> TenantID m = tenantID -> ShardID m = shardID) ->
  shardID <> "" ->
  (orchestratedLookup tenantID (start f w)).1 = (shardID, None).
Proof.
  intros [Hl|Hl] Hs Hc Hd Hin Hall Hne.
  { by destruct (orchestratedLookup_local_hit tenantID (start f w) shardID Hl)
      as (c & ls & _ & ->). }
  destruct Hs as [Hs|Hs].
  { by destruct (orchestratedLookup_shared_hit tenantID (start f w) shardID Hl Hs) as [ls ->]. }
  pose proof (searchMappings_agree _ _ _ Hin Hall) as Hfind.
  by destruct (lookup_found f w tenantID Hl Hs d shardID Hc Hd Hfind Hne) as [ls [-> _]].
Qed.

Lemma mapped_tenant_found_witness :
  (orchestratedLookup "tenant1" (start demo_filter demo_world)).1 = ("shard-a", None).
Proof.
  apply (mapped_tenant_found demo_filter demo_world "tenant1" "shard-a" demo_table).
  - right. apply demo_local_miss.
  - right. left. apply demo_shared_miss.
  - by eexists.
  - reflexivity.
  - apply list_elem_of_here.
  - intros m Hm Ht. cbn in Hm. rewrite !elem_of_cons in Hm.
    destruct Hm as [->|[->|Hm]]; [reflexivity | discriminate Ht | by apply elem_of_nil in Hm].
  - discriminate.
Defined.

(** ** Store failures *)

(** C4: when neither cache produces a hit, a failure of the store tier (the
    fetch, the reading of the body or the parsing of the document; also a
    missing client) is returned to the caller as the error of the call,
    with an empty shard, and nothing is cached. *)
Theorem store_failure_propagated f w tenantID e :
  local_miss f tenantID -> shared_no_hit f w tenantID -> store_failure f w e ->
  (orchestratedLookup tenantID (start f w)).1 = ("", Some e) /\
  st_filter (orchestratedLookup tenantID (start f w)).2 = f /\
  st_world (orchestratedLookup tenantID (start f w)).2 = w.
Proof.
  intros Hl Hs Hfail.
  by destruct (lookup_store_failure f w tenantID Hl Hs e Hfail) as [ls ->].
Qed.

Lemma store_failure_propagated_witness :
  (orchestratedLookup "tenant1" (start demo_filter demo_world_store_down)).1 =
  ("", Some (errorString "RequestError: send request failed")).
Proof.
  refine (proj1 (store_failure_propagated demo_filter demo_world_store_down "tenant1" _ _ _ _)).
  - reflexivity.
  - left. split; [by eexists|]. split; [by left|]. intros _. left. apply lookup_empty.
  - right. split; [by eexists|]. left. reflexivity.
Defined.

(** ** Duplicate entries *)

(** C8: when the fetched table has several entries for a tenant,
    [lookupInS3] returns the shard of the first of them in document order,
    whatever follows it; and so does [orchestratedLookup] when it reaches
    the store and that shard is not empty. *)
Theorem duplicate_tenant_first_wins f w tenantID d pre m post :
  is_Some (s3Client f) -> store_answer f w = Parsed d ->
  Mappings d = pre ++ m :: post ->
  tenantID ∉ (TenantID <$> pre) -> TenantID m = tenantID ->
  (lookupInS3 tenantID (start f w)).1 = (ShardID m, None) /\
  (local_miss f tenantID -> shared_no_hit f w tenantID -> ShardID m <> "" ->
   (orchestratedLookup tenantID (start f w)).1 = (ShardID m, None)).
Proof.
  intros Hc Hd Hsplit Hpre Hm.
  assert (searchMappings tenantID (Mappings d) = Some (ShardID m)) as Hfind
    by (rewrite Hsplit; by apply searchMappings_first).
  split.
  - destruct (lookupInS3_parsed tenantID (start f w) d Hc Hd) as [ls ->].
    by rewrite Hfind.
  - intros Hl Hs Hne.
    by destruct (lookup_found f w tenantID Hl Hs d (ShardID m) Hc Hd Hfind Hne) as [ls [-> _]].
Qed.

Lemma duplicate_tenant_first_wins_witness :
  (lookupInS3 "tenant1" (start demo_filter demo_world_dup)).1 = ("shard-a", None).
Proof.
  refine (proj1 (duplicate_tenant_first_wins demo_filter demo_world_dup "tenant1" demo_table_dup
                   [ {| TenantID := "acme"; ShardID := "shard-c" |} ]
                   {| TenantID := "tenant1"; ShardID := "shard-a" |}
                   [ {| TenantID := "tenant1"; ShardID := "shard-z" |} ] _ eq_refl eq_refl _ eq_refl)).
  - by eexists.
  - apply searchMappings_None. reflexivity.
Defined.

(** ** The order of the tiers *)

Lemma orchestratedLookup_inv f w tenantID r s' :
  orchestratedLookup tenantID (start f w) = (r, s') ->
  resolution f w tenantID r (st_filter s') (st_world s') (st_calls s').
Proof. intros H. pose proof (orchestratedLookup_resolution f w tenantID) as Hres. by rewrite H in Hres. Qed.

Lemma filter_ok_calls f tenantID :
  filter_ok f ->
  mem_get_calls f tenantID = [MemGet tenantID] /\
  redis_get_calls f tenantID = [RedisGET (redis_key f tenantID)] /\
  s3_calls f = [S3GetObject (S3Bucket (config f)) (S3Key (config f))] /\
  (forall shardID, mem_add_calls f tenantID shardID = [MemAdd tenantID shardID]) /\
  (forall shardID, set_calls tenantID f shardID =
                   [RedisSET (redis_key f tenantID) shardID (RedisTTL (config f))]).
Proof.
  intros [(c & Hc & _) [o Ho] [cl Hcl]].
  unfold mem_get_calls, redis_get_calls, s3_calls, mem_add_calls, set_calls.
  by rewrite Hc, Ho, Hcl.
Qed.

(** After a call that returned a shard, the memory cache answers with it. *)
Lemma resolution_found_cached f w tenantID shardID f' w' cs :
  filter_ok f -> resolution f w tenantID (shardID, None) f' w' cs ->
  local_hit f' tenantID shardID.
Proof.
  intros Hok Hres. inversion Hres; subst.
  - by apply cache_touched_hit.
  - by apply cache_added_hit.
  - by apply cache_added_hit.
Qed.

(** Within one filter: the tiers are asked in the order memory cache,
    shared cache, store (the look-ups of a call are an initial part of that
    sequence); a hit in the memory cache ends the call with no other call
    made; and if a second lookup were made on the filter that a lookup
    left, it would be answered by the memory cache alone.  The program
    makes no such second lookup: each request has a filter of its own. *)
Theorem tiers_in_order_and_local_hit_final f w tenantID :
  reachable f ->
  List.filter is_query (st_calls (orchestratedLookup tenantID (start f w)).2)
    `prefix_of` tier_order f tenantID /\
  (forall shardID,
     local_hit f tenantID shardID ->
     (orchestratedLookup tenantID (start f w)).1 = (shardID, None) /\
     st_calls (orchestratedLookup tenantID (start f w)).2 = [MemGet tenantID] /\
     st_world (orchestratedLookup tenantID (start f w)).2 = w) /\
  (forall shardID w',
     (orchestratedLookup tenantID (start f w)).1 = (shardID, None) ->
     let f' := st_filter (orchestratedLookup tenantID (start f w)).2 in
     (orchestratedLookup tenantID (start f' w')).1 = (shardID, None) /\
     st_calls (orchestratedLookup tenantID (start f' w')).2 = [MemGet tenantID] /\
     st_world (orchestratedLookup tenantID (start f' w')).2 = w').
Proof.
  intros Hok%reachable_ok.
  assert (forall g v shardID,
    local_hit g tenantID shardID ->
    (orchestratedLookup tenantID (start g v)).1 = (shardID, None) /\
    st_calls (orchestratedLookup tenantID (start g v)).2 = [MemGet tenantID] /\
    st_world (orchestratedLookup tenantID (start g v)).2 = v) as Hhit.
  { intros g v s Hs.
    by destruct (orchestratedLookup_local_hit tenantID (start g v) s Hs) as (c & ls & _ & ->). }
  split; [|split; [by auto|]].
  - destruct (orchestratedLookup tenantID (start f w)) as [r s'] eqn:Hrun.
    apply orchestratedLookup_inv in Hrun. cbn.
    destruct (filter_ok_calls f tenantID Hok) as (Hm & Hr & Hs3 & Ha & Hset).
    unfold tier_order.
    destruct Hrun; rewrite ?Hm, ?Hr, ?Hs3, ?Ha, ?Hset; cbn.
    + by eexists [_; _].
    + by eexists [_].
    + by exists [].
    + by exists [].
    + by exists [].
  - intros s w' Hfound f'. apply Hhit. subst f'.
    destruct (orchestratedLookup tenantID (start f w)) as [r s'] eqn:Hrun.
    apply orchestratedLookup_inv in Hrun. cbn in *. subst r.
    by eapply resolution_found_cached.
Qed.

Lemma tiers_in_order_and_local_hit_final_witness :
  let f' := st_filter (orchestratedLookup "tenant1" (start demo_filter demo_world)).2 in
  (orchestratedLookup "tenant1" (start f' demo_world_store_down)).1 = ("shard-a", None) /\
  st_calls (orchestratedLookup "tenant1" (start f' demo_world_store_down)).2 = [MemGet "tenant1"] /\
  st_world (orchestratedLookup "tenant1" (start f' demo_world_store_down)).2 = demo_world_store_down.
Proof.
  exact (proj2 (proj2 (tiers_in_order_and_local_hit_final demo_filter demo_world "tenant1"
                         demo_filter_reachable))
           "shard-a" demo_world_store_down eq_refl).
Defined.

(** C3: the code does not do what the claim and the README ("second request
    should hit memory cache") say.  [filterFactory] creates a new, empty
    memory cache for every filter it builds, and a filter serves one
    request ([DecodeHeaders] is the only caller of [orchestratedLookup]).
    So whatever the first request found, the lookup of the next request,
    on the filter built for it and in the world the first request left,
    misses the memory cache and asks the shared cache: its calls start
    with the look-up in the memory cache followed by a GET to Redis. *)
Theorem next_request_asks_shared_cache conf sess_err f1 f2 w tenantID :
  filterFactory conf sess_err = inr f1 ->
  filterFactory conf sess_err = inr f2 ->
  local_miss f2 tenantID /\
  exists rest,
    st_calls (orchestratedLookup tenantID
                (start f2 (st_world (orchestratedLookup tenantID (start f1 w)).2))).2
    = MemGet tenantID :: RedisGET (redis_key f2 tenantID) :: rest.
Proof.
  intros _ Hnew.
  pose proof (filterFactory_ok _ _ _ Hnew) as Hok.
  apply filterFactory_inr in Hnew as (_ & _ & _ & Hcache & _).
  assert (local_miss f2 tenantID) as Hmiss by (unfold local_miss; by rewrite Hcache).
  split; [done|].
  generalize (st_world (orchestratedLookup tenantID (start f1 w)).2). intros w1.
  destruct (filter_ok_calls f2 tenantID Hok) as (Hm & Hr & _).
  destruct (orchestratedLookup tenantID (start f2 w1)) as [r s'] eqn:Hrun.
  apply orchestratedLookup_inv in Hrun. cbn.
  destruct Hrun as [c s Hc Hfind| | | |]; rewrite ?Hm, ?Hr; cbn; [|by eexists..].
  exfalso. eapply local_hit_miss; [|exact Hmiss]. by exists c.
Qed.

Lemma next_request_asks_shared_cache_witness :
  local_miss demo_filter "tenant1" /\
  exists rest,
    st_calls (orchestratedLookup "tenant1"
                (start demo_filter
                   (st_world (orchestratedLookup "tenant1" (start demo_filter demo_world)).2))).2
    = MemGet "tenant1" :: RedisGET (redis_key demo_filter "tenant1") :: rest.
Proof.
  exact (next_request_asks_shared_cache demo_conf None demo_filter demo_filter demo_world
           "tenant1" demo_filter_new demo_filter_new).
Defined.

(** The two requests of the README, evaluated: the first is answered by
    the store and fills Redis; the second, on its own new filter, is
    answered by Redis. *)
Lemma second_request_served_by_redis :
  (orchestratedLookup "tenant1" (start demo_filter demo_world)).1 = ("shard-a", None) /\
  (orchestratedLookup "tenant1"
     (start demo_filter
        (st_world (orchestratedLookup "tenant1" (start demo_filter demo_world)).2))).1
  = ("shard-a", None) /\
  st_calls (orchestratedLookup "tenant1"
              (start demo_filter
                 (st_world (orchestratedLookup "tenant1" (start demo_filter demo_world)).2))).2
  = [MemGet "tenant1"; RedisGET "shard_router:tenant1"; MemAdd "tenant1" "shard-a"].
Proof. repeat split; reflexivity. Qed.

(** ** Shared cache outages *)

Lemma demo_shared_error :
  shared_error demo_filter demo_world_redis_down (errorString "dial tcp: i/o timeout").
Proof. right. split; [by eexists|]. split; [reflexivity | discriminate]. Defined.

(** C5: when the look-up in the shared cache fails, the call goes on to the
    store and its outcome is the one the store decides: the store's own
    error if the fetch fails, the shard of the table (then also held by the
    memory cache) if the table maps the tenant, the no-mapping error if the
    table does not have the tenant. *)
Theorem shared_error_degrades f w tenantID e :
  reachable f -> local_miss f tenantID -> shared_error f w e ->
  S3GetObject (S3Bucket (config f)) (S3Key (config f))
    ∈ st_calls (orchestratedLookup tenantID (start f w)).2 /\
  (forall e', store_failure f w e' ->
     (orchestratedLookup tenantID (start f w)).1 = ("", Some e')) /\
  (forall d shardID,
     store_answer f w = Parsed d ->
     {| TenantID := tenantID; ShardID := shardID |} ∈ Mappings d ->
     (forall m, m ∈ Mappings d -> TenantID m = tenantID -> ShardID m = shardID) ->
     shardID <> "" ->
     (orchestratedLookup tenantID (start f w)).1 = (shardID, None) /\
     local_hit (st_filter (orchestratedLookup tenantID (start f w)).2) tenantID shardID) /\
  (forall d,
     store_answer f w = Parsed d -> tenantID ∉ (TenantID <$> Mappings d) ->
     (orchestratedLookup tenantID (start f w)).1 =
     ("", Some (errorString ("no shard mapping found for tenant: " +:+ tenantID)))).
Proof.
  intros Hok%reachable_ok Hl Herr.
  assert (shared_no_hit f w tenantID) as Hs by (right; eauto).
  pose proof (ok_s3 f Hok) as Hc.
  destruct (filter_ok_calls f tenantID Hok) as (Hm & Hr & Hs3 & Ha & Hset).
  repeat apply conj.
  - destruct (orchestratedLookup tenantID (start f w)) as [r s'] eqn:Hrun.
    apply orchestratedLookup_inv in Hrun. cbn.
    destruct Hrun as [c s Hc' Hfind|s _ Hhit| | |].
    + exfalso. eapply local_hit_miss; [|exact Hl]. by exists c.
    + exfalso. by eapply shared_hit_no_hit.
    + rewrite Hs3, !elem_of_app, list_elem_of_singleton. auto.
    + rewrite Hs3, !elem_of_app, list_elem_of_singleton. auto.
    + rewrite Hs3, !elem_of_app, list_elem_of_singleton. auto.
  - intros e' Hfail.
    by destruct (lookup_store_failure f w tenantID Hl Hs e' Hfail) as [ls ->].
  - intros d s Hd Hin Hall Hne.
    pose proof (searchMappings_agree _ _ _ Hin Hall) as Hfind.
    destruct (lookup_found f w tenantID Hl Hs d s Hc Hd Hfind Hne) as [ls [-> _]].
    cbn. split; [done | by apply cache_added_hit].
  - intros d Hd Habs%searchMappings_None.
    by destruct (lookup_not_mapped f w tenantID Hl Hs d Hc Hd) as [ls ->]; [by rewrite Habs|].
Qed.

Lemma shared_error_degrades_witness :
  (orchestratedLookup "tenant1" (start demo_filter demo_world_redis_down)).1 = ("shard-a", None) /\
  local_hit (st_filter (orchestratedLookup "tenant1" (start demo_filter demo_world_redis_down)).2)
    "tenant1" "shard-a".
Proof.
  refine (proj1 (proj2 (proj2 (shared_error_degrades demo_filter demo_world_redis_down "tenant1" _
                                 demo_filter_reachable (demo_local_miss _) demo_shared_error)))
            demo_table "shard-a" eq_refl _ _ _).
  - apply list_elem_of_here.
  - intros m Hm Ht. cbn in Hm. rewrite !elem_of_cons in Hm.
    destruct Hm as [->|[->|Hm]]; [reflexivity | discriminate Ht | by apply elem_of_nil in Hm].
  - discriminate.
Defined.

(** ** Write-back *)

(** C6: a shard found by the store tier is written to the shared cache and
    then to the memory cache before the call returns it; when the write to
    the shared cache fails, a warning is logged, the shared cache stays as
    it was and the call returns the shard all the same.  A shard found by
    the shared cache tier is written to the memory cache before the call
    returns it. *)
Theorem found_is_written_back f w tenantID :
  reachable f -> local_miss f tenantID ->
  (forall d pre m post,
     shared_no_hit f w tenantID -> store_answer f w = Parsed d ->
     Mappings d = pre ++ m :: post -> tenantID ∉ (TenantID <$> pre) ->
     TenantID m = tenantID -> ShardID m <> "" ->
     (orchestratedLookup tenantID (start f w)).1 = (ShardID m, None) /\
     local_hit (st_filter (orchestratedLookup tenantID (start f w)).2) tenantID (ShardID m) /\
     st_calls (orchestratedLookup tenantID (start f w)).2 =
       [MemGet tenantID; RedisGET (redis_key f tenantID);
        S3GetObject (S3Bucket (config f)) (S3Key (config f));
        RedisSET (redis_key f tenantID) (ShardID m) (RedisTTL (config f));
        MemAdd tenantID (ShardID m)] /\
     (redis_set_err w = None ->
      redis_kv (st_world (orchestratedLookup tenantID (start f w)).2) =
      <[redis_key f tenantID := ShardID m]> (redis_kv w)) /\
     (forall e, redis_set_err w = Some e ->
        st_world (orchestratedLookup tenantID (start f w)).2 = w /\
        (Warn, "Failed to cache in Redis: " +:+ Error e)
          ∈ st_logs (orchestratedLookup tenantID (start f w)).2)) /\
  (forall shardID,
     shared_hit f w tenantID shardID ->
     (orchestratedLookup tenantID (start f w)).1 = (shardID, None) /\
     local_hit (st_filter (orchestratedLookup tenantID (start f w)).2) tenantID shardID /\
     st_world (orchestratedLookup tenantID (start f w)).2 = w /\
     st_calls (orchestratedLookup tenantID (start f w)).2 =
       [MemGet tenantID; RedisGET (redis_key f tenantID); MemAdd tenantID shardID]).
Proof.
  intros Hok%reachable_ok Hl.
  pose proof (ok_s3 f Hok) as Hc. pose proof (ok_redis f Hok) as [o Ho].
  destruct (filter_ok_calls f tenantID Hok) as (Hm & Hr & Hs3 & Ha & Hset).
  split.
  - intros d pre m post Hs Hd Hsplit Hpre Hten Hne.
    assert (searchMappings tenantID (Mappings d) = Some (ShardID m)) as Hfind
      by (rewrite Hsplit; by apply searchMappings_first).
    destruct (lookup_found f w tenantID Hl Hs d (ShardID m) Hc Hd Hfind Hne) as [ls [-> Hlog]].
    cbn. rewrite Hm, Hr, Hs3, Ha, Hset.
    unfold kv_after_set, set_error in *. rewrite Ho in *.
    repeat apply conj; [done | by apply cache_added_hit | done | by intros -> |].
    intros e He. rewrite He. split; [apply world_eta | by apply Hlog].
  - intros s Hs.
    destruct (orchestratedLookup_shared_hit tenantID (start f w) s Hl Hs) as [ls ->].
    cbn. rewrite Hm, Hr, Ha. repeat apply conj; [done | by apply cache_added_hit | done..].
Qed.

Lemma found_is_written_back_witness :
  ((orchestratedLookup "tenant1" (start demo_filter demo_world_redis_readonly)).1
     = ("shard-a", None) /\
   local_hit (st_filter (orchestratedLookup "tenant1" (start demo_filter demo_world_redis_readonly)).2)
     "tenant1" "shard-a") /\
  ((orchestratedLookup "tenant1" (start demo_filter demo_world_redis_warm)).1 = ("shard-a", None) /\
   local_hit (st_filter (orchestratedLookup "tenant1" (start demo_filter demo_world_redis_warm)).2)
     "tenant1" "shard-a").
Proof.
  split.
  - pose proof (proj1 (found_is_written_back demo_filter demo_world_redis_readonly "tenant1"
                         demo_filter_reachable (demo_local_miss _))
                  demo_table [] {| TenantID := "tenant1"; ShardID := "shard-a" |}
                  [ {| TenantID := "acme"; ShardID := "shard-c" |} ]) as H.
    cbn [ShardID] in H. refine (let H' := H _ eq_refl eq_refl _ eq_refl _ in conj (proj1 H') (proj1 (proj2 H'))).
    + left. split; [by eexists|]. split; [by left|]. intros _. left. apply lookup_empty.
    + apply not_elem_of_nil.
    + discriminate.
  - pose proof (proj2 (found_is_written_back demo_filter demo_world_redis_warm "tenant1"
                         demo_filter_reachable (demo_local_miss _)) "shard-a") as H.
    refine (let H' := H _ in conj (proj1 H') (proj1 (proj2 H'))).
    split; [by eexists|]. split; [reflexivity|]. split; [reflexivity | discriminate].
Defined.

(** ** The empty shard *)

(** Two worlds in which the shared cache gives no hit and the store
    answers the same lead to the same result. *)
Lemma no_hit_result_store f w1 w2 tenantID :
  local_miss f tenantID -> shared_no_hit f w1 tenantID -> shared_no_hit f w2 tenantID ->
  s3_get w1 = s3_get w2 ->
  (orchestratedLookup tenantID (start f w1)).1 = (orchestratedLookup tenantID (start f w2)).1.
Proof.
  intros Hl Hs1 Hs2 Hs3.
  assert (store_answer f w1 = store_answer f w2) as Hans by (unfold store_answer; by rewrite Hs3).
  destruct (store_cases f w1) as [[e Hfail]|[Hc [d Hd]]].
  - assert (store_failure f w2 e) as Hfail2 by (unfold store_failure in *; by rewrite <- Hans).
    destruct (lookup_store_failure f w1 tenantID Hl Hs1 e Hfail) as [ls1 ->].
    by destruct (lookup_store_failure f w2 tenantID Hl Hs2 e Hfail2) as [ls2 ->].
  - assert (store_answer f w2 = Parsed d) as Hd2 by (by rewrite <- Hans).
    destruct (searchMappings tenantID (Mappings d)) as [s|] eqn:Hfind;
      [destruct (decide (s = "")) as [->|Hne]|].
    + destruct (lookup_not_mapped f w1 tenantID Hl Hs1 d Hc Hd) as [ls1 ->]; [by rewrite Hfind|].
      by destruct (lookup_not_mapped f w2 tenantID Hl Hs2 d Hc Hd2) as [ls2 ->];
        [by rewrite Hfind|].
    + destruct (lookup_found f w1 tenantID Hl Hs1 d s Hc Hd Hfind Hne) as [ls1 [-> _]].
      by destruct (lookup_found f w2 tenantID Hl Hs2 d s Hc Hd2 Hfind Hne) as [ls2 [-> _]].
    + destruct (lookup_not_mapped f w1 tenantID Hl Hs1 d Hc Hd) as [ls1 ->]; [by rewrite Hfind|].
      by destruct (lookup_not_mapped f w2 tenantID Hl Hs2 d Hc Hd2) as [ls2 ->];
        [by rewrite Hfind|].
Qed.

(** C7: in every filter the program can hold, and for every call: a
    returned shard is never empty; the memory cache holds no empty shard,
    before or after; no empty value is written to the shared cache, and an
    empty value in it after the call was there before; a call that returns
    an error changes neither cache.  An empty value in the shared cache is
    treated as an absent key, and an entry of the table with an empty shard
    as a tenant without a mapping. *)
Theorem empty_shard_is_absence f w tenantID :
  reachable f ->
  (forall shardID, (orchestratedLookup tenantID (start f w)).1 = (shardID, None) -> shardID <> "") /\
  (forall c, memoryCache f = Some c -> lru_nonempty c) /\
  (forall c, memoryCache (st_filter (orchestratedLookup tenantID (start f w)).2) = Some c ->
             lru_nonempty c) /\
  (forall k v ttl, RedisSET k v ttl ∈ st_calls (orchestratedLookup tenantID (start f w)).2 ->
                   v <> "") /\
  (forall k, redis_kv (st_world (orchestratedLookup tenantID (start f w)).2) !! k = Some "" ->
             redis_kv w !! k = Some "") /\
  (forall e, (orchestratedLookup tenantID (start f w)).1.2 = Some e ->
             st_filter (orchestratedLookup tenantID (start f w)).2 = f /\
             st_world (orchestratedLookup tenantID (start f w)).2 = w) /\
  (local_miss f tenantID -> redis_get_err w = None ->
   redis_kv w !! redis_key f tenantID = Some "" ->
   (orchestratedLookup tenantID (start f w)).1 =
   (orchestratedLookup tenantID
      (start f (with_kv w (delete (redis_key f tenantID) (redis_kv w))))).1) /\
  (forall d pre m post,
     local_miss f tenantID -> shared_no_hit f w tenantID -> store_answer f w = Parsed d ->
     Mappings d = pre ++ m :: post -> tenantID ∉ (TenantID <$> pre) ->
     TenantID m = tenantID -> ShardID m = "" ->
     (orchestratedLookup tenantID (start f w)).1 =
       ("", Some (errorString ("no shard mapping found for tenant: " +:+ tenantID))) /\
     st_filter (orchestratedLookup tenantID (start f w)).2 = f /\
     st_world (orchestratedLookup tenantID (start f w)).2 = w).
Proof.
  intros Hok%reachable_ok.
  pose proof (ok_s3 f Hok) as Hc. pose proof (ok_redis f Hok) as [o Ho].
  destruct (filter_ok_calls f tenantID Hok) as (Hm & Hr & Hs3 & Ha & Hset).
  assert (forall g c, filter_ok g -> memoryCache g = Some c -> lru_nonempty c) as Hnon.
  { intros g c [(c' & Hc' & _ & Hn & _) _ _] Hg. by simplify_eq. }
  split; [|split; [by eauto|]]; [|repeat apply conj].
  - intros s Hrun.
    destruct (orchestratedLookup tenantID (start f w)) as [r s'] eqn:Hrun'.
    apply orchestratedLookup_inv in Hrun'. cbn in Hrun. subst r.
    inversion Hrun' as [c s0 Hc0 Hfind|s0 _ Hhit| | |]; subst; [| |done].
    + eapply local_hit_nonempty; [exact Hok|]. by exists c.
    + by destruct Hhit as (_ & _ & _ & ?).
  - intros c. apply Hnon. eapply resolution_ok; [apply orchestratedLookup_resolution | exact Hok].
  - intros k v ttl.
    destruct (orchestratedLookup tenantID (start f w)) as [r s'] eqn:Hrun.
    apply orchestratedLookup_inv in Hrun. cbn.
    destruct Hrun; rewrite ?Hm, ?Hr, ?Hs3, ?Ha, ?Hset; cbn;
      rewrite ?elem_of_cons, elem_of_nil; intros Hin; decompose [or] Hin; by simplify_eq.
  - intros k.
    destruct (orchestratedLookup tenantID (start f w)) as [r s'] eqn:Hrun.
    apply orchestratedLookup_inv in Hrun. cbn.
    destruct Hrun as [| | | |d s _ _ _ _ _ Hne]; try done.
    cbn. unfold kv_after_set. rewrite Ho. destruct (redis_set_err w); [done|].
    destruct (decide (redis_key f tenantID = k)) as [<-|Hk].
    + rewrite lookup_insert_eq. congruence.
    + by rewrite lookup_insert_ne.
  - intros e.
    destruct (orchestratedLookup tenantID (start f w)) as [r s'] eqn:Hrun.
    apply orchestratedLookup_inv in Hrun. cbn.
    by destruct Hrun.
  - intros Hl Herr Hkv. apply no_hit_result_store; [done | | | done].
    + left. split; [by eexists|]. split; [by left|]. intros _. by right.
    + left. split; [by eexists|]. split; [by left|]. intros _. left. cbn.
      apply lookup_delete_eq.
  - intros d pre m post Hl Hs Hd Hsplit Hpre Hten Hempty.
    assert (searchMappings tenantID (Mappings d) = Some "") as Hfind
      by (rewrite Hsplit, <- Hempty; by apply searchMappings_first).
    by destruct (lookup_not_mapped f w tenantID Hl Hs d Hc Hd) as [ls ->]; [by rewrite Hfind|].
Qed.

Lemma empty_shard_is_absence_witness :
  (orchestratedLookup "ghost" (start demo_filter demo_world_empty)).1 =
    ("", Some (errorString "no shard mapping found for tenant: ghost")) /\
  st_filter (orchestratedLookup "ghost" (start demo_filter demo_world_empty)).2 = demo_filter /\
  st_world (orchestratedLookup "ghost" (start demo_filter demo_world_empty)).2 = demo_world_empty.
Proof.
  refine (proj2 (proj2 (proj2 (proj2 (proj2 (proj2 (proj2
            (empty_shard_is_absence demo_filter demo_world_empty "ghost" demo_filter_reachable)))))))
            _ [] {| TenantID := "ghost"; ShardID := "" |}
            [ {| TenantID := "ghost"; ShardID := "shard-b" |} ]
            (demo_local_miss _) _ eq_refl eq_refl _ eq_refl eq_refl).
  - left. split; [by eexists|]. split; [by left|]. intros _. right. reflexivity.
  - apply not_elem_of_nil.
Defined.

(** ** Merging configurations *)

(** C10: [Merge] returns the address of a configuration that did not exist
    before and leaves every existing configuration, the parent among them,
    as it was.  In the new configuration each field is the child's when the
    child's is not the zero value, and the parent's otherwise; so a field
    that is not zero in the parent is not zero in the result. *)
Theorem Merge_zero_child_keeps_parent h parent child parentConfig childConfig :
  h !! parent = Some parentConfig -> h !! child = Some childConfig ->
  exists h' l newConfig,
    Merge h parent child = Some (h', l) /\
    h !! l = None /\ h' !! l = Some newConfig /\
    (forall l', l' <> l -> h' !! l' = h !! l') /\
    h' !! parent = Some parentConfig /\
    Forall (fun fld : PluginConfig -> string =>
              fld newConfig = (if decide (fld childConfig = "") then fld parentConfig
                               else fld childConfig) /\
              (fld parentConfig <> "" -> fld newConfig <> "")) string_fields /\
    Forall (fun fld : PluginConfig -> Z =>
              fld newConfig = (if decide (fld childConfig = 0) then fld parentConfig
                               else fld childConfig) /\
              (fld parentConfig <> 0 -> fld newConfig <> 0)) num_fields.
Proof.
  intros Hp Hc. unfold Merge. rewrite Hp, Hc.
  set (l := fresh (dom h)).
  assert (h !! l = None) as Hfresh by (apply not_elem_of_dom, is_fresh).
  exists (<[l := merged parentConfig childConfig]> h), l, (merged parentConfig childConfig).
  repeat apply conj; [done | done | apply lookup_insert_eq | | |..].
  - intros l' Hne. by apply lookup_insert_ne.
  - rewrite lookup_insert_ne; [done | congruence].
  - unfold string_fields. repeat constructor; cbn; unfold override_string;
      try destruct (decide _); congruence.
  - unfold num_fields. repeat constructor; cbn; unfold override_num;
      try destruct (decide _); congruence.
Qed.

Lemma Merge_zero_child_keeps_parent_witness :
  exists h' l newConfig,
    Merge demo_heap 1%positive 2%positive = Some (h', l) /\
    h' !! 1%positive = Some demo_parent /\
    RedisDB newConfig = 3 /\ RedisKeyPrefix newConfig = "shard_router:" /\
    RedisTimeout newConfig = 2000000000 /\ S3Key newConfig = "other.json".
Proof.
  destruct (Merge_zero_child_keeps_parent demo_heap 1%positive 2%positive demo_parent demo_child
              eq_refl eq_refl) as (h' & l & newConfig & HM & _ & _ & _ & Hp & Hstr & Hnum).
  exists h', l, newConfig. split; [exact HM|]. split; [exact Hp|].
  unfold string_fields in Hstr. unfold num_fields in Hnum.
  repeat match goal with H : Forall _ (_ :: _) |- _ => apply Forall_cons in H as [[? _] H] end.
  repeat split; assumption.
Defined.

(** ** The capacity of the memory cache *)

Lemma apply_ops_wf ops : forall c, lru_wf c -> lru_wf (apply_ops c ops).
Proof.
  induction ops as [|op ops IH]; intros c Hwf; [done|].
  apply IH. destruct op; [by apply lru_Get_wf | by apply lru_Add_wf].
Qed.

Lemma apply_ops_size ops : forall c, lru_size (apply_ops c ops) = lru_size c.
Proof.
  induction ops as [|op ops IH]; intros c; [done|].
  cbn. rewrite IH. destruct op; [apply lru_Get_size | apply lru_Add_size].
Qed.

Lemma lru_wf_split_find c k v pre post :
  lru_wf c -> lru_items c = pre ++ (k, v) :: post ->
  (k ∉ pre.*1) /\ (k ∉ post.*1) /\ lru_find k (lru_items c) = Some v.
Proof.
  intros [_ _ Hnd] Hitems. unfold lru_keys in Hnd. rewrite Hitems in *.
  rewrite fmap_app, fmap_cons in Hnd. cbn in Hnd.
  apply NoDup_app in Hnd as (_ & Hdisj & Hnd). apply NoDup_cons in Hnd as [Hpost _].
  assert (k ∉ pre.*1) as Hpre.
  { intros Hin. apply (Hdisj _ Hin). apply list_elem_of_here. }
  repeat split; [done | done |].
  rewrite lru_find_app. apply lru_find_None in Hpre. rewrite Hpre. cbn.
  by destruct (decide (k = k)).
Qed.

(** A hit moves the entry to the front and keeps the others in order. *)
Lemma lru_Get_moves_to_front c k v pre post :
  lru_wf c -> lru_items c = pre ++ (k, v) :: post ->
  lru_Get c k = (v, true, {| lru_size := lru_size c; lru_items := (k, v) :: pre ++ post |}).
Proof.
  intros Hwf Hitems.
  destruct (lru_wf_split_find c k v pre post Hwf Hitems) as (Hpre & Hpost & Hfind).
  rewrite (lru_Get_hit _ _ _ Hfind), Hitems, lru_remove_app. cbn.
  destruct (decide (k = k)); [|done].
  by rewrite !lru_remove_absent.
Qed.

Lemma demo_cache_wf : lru_wf demo_cache.
Proof.
  split; unfold lru_Len, lru_keys; cbn; [lia | lia |].
  apply NoDup_cons. split; [|apply NoDup_singleton].
  rewrite list_elem_of_singleton. discriminate.
Defined.

(** C9: the memory cache of a filter has the configured capacity and never
    holds more entries than that, whatever look-ups and insertions are
    made; inserting a new key into a full cache removes the entry at the
    back, the least recently used, and no other; a hit moves the entry to
    the front, so that an entry which was the oldest and is then looked up
    survives the next insertion, which removes the second oldest instead. *)
Theorem memory_cache_bounded_lru :
  (forall f, reachable f ->
     exists c, memoryCache f = Some c /\ lru_size c = MemoryCacheSize (config f) /\
               lru_Len c <= MemoryCacheSize (config f)) /\
  (forall size c ops, lru_New size = inr c -> lru_Len (apply_ops c ops) <= size) /\
  (forall c k v init oldest,
     lru_wf c -> lru_Len c = lru_size c -> lru_items c = init ++ [oldest] ->
     k ∉ lru_keys c ->
     lru_items (lru_Add c k v) = (k, v) :: init) /\
  (forall c k v pre post,
     lru_wf c -> lru_items c = pre ++ (k, v) :: post ->
     lru_Get c k = (v, true, {| lru_size := lru_size c; lru_items := (k, v) :: pre ++ post |})) /\
  (forall c k v k' v' init second,
     lru_wf c -> lru_Len c = lru_size c -> lru_items c = init ++ [second; (k, v)] ->
     k' ∉ lru_keys c ->
     lru_items (lru_Add c k' v') = (k', v') :: init ++ [second] /\
     lru_items (lru_Add (lru_Get c k).2 k' v') = (k', v') :: (k, v) :: init).
Proof.
  repeat apply conj.
  - intros f [(c & Hc & Hwf & _ & Hsz) _ _]%reachable_ok.
    exists c. repeat split; [done..|]. rewrite <- Hsz. apply Hwf.
  - intros size c ops Hnew. pose proof (lru_New_wf _ _ Hnew) as Hwf.
    apply lru_New_inr in Hnew as [_ ->].
    pose proof (apply_ops_wf ops _ Hwf) as [_ Hlen _].
    by rewrite apply_ops_size in Hlen.
  - intros c k v init oldest Hwf Hfull Hitems Hk.
    rewrite lru_Add_evict; [|apply Hwf|done..]. by rewrite Hitems, removelast_snoc.
  - apply lru_Get_moves_to_front.
  - intros c k v k' v' init second Hwf Hfull Hitems Hk'. split.
    + rewrite lru_Add_evict; [|apply Hwf|done..].
      rewrite Hitems. change (init ++ [second; (k, v)]) with (init ++ [second] ++ [(k, v)]).
      by rewrite app_assoc, removelast_snoc.
    + assert (lru_items c = (init ++ [second]) ++ (k, v) :: []) as Hitems'
        by (by rewrite Hitems, <- app_assoc).
      rewrite (lru_Get_moves_to_front c k v _ _ Hwf Hitems'). cbn [snd].
      rewrite lru_Add_evict; cbn [lru_size lru_items].
      * rewrite app_nil_r.
        change ((k, v) :: init ++ [second]) with (((k, v) :: init) ++ [second]).
        by rewrite removelast_snoc.
      * apply Hwf.
      * unfold lru_keys in *. cbn. rewrite Hitems' in Hk'.
        rewrite fmap_app in Hk'. cbn in Hk'. rewrite app_nil_r.
        rewrite elem_of_app, list_elem_of_singleton in Hk'.
        rewrite elem_of_cons. tauto.
      * unfold lru_Len in *. cbn. rewrite <- Hfull, Hitems'.
        rewrite app_nil_r, !length_app. cbn. lia.
Qed.

Lemma memory_cache_bounded_lru_witness :
  lru_items (lru_Add demo_cache "c" "shard-c") = [("c", "shard-c"); ("b", "shard-b")] /\
  lru_items (lru_Add (lru_Get demo_cache "a").2 "c" "shard-c") =
    [("c", "shard-c"); ("a", "shard-a")].
Proof.
  refine (proj2 (proj2 (proj2 (proj2 memory_cache_bounded_lru)))
            demo_cache "a" "shard-a" "c" "shard-c" [] ("b", "shard-b")
            demo_cache_wf eq_refl eq_refl _).
  unfold lru_keys. cbn. rewrite !not_elem_of_cons. repeat split; try discriminate.
  apply not_elem_of_nil.
Defined.


(** * Properties of the rest of the plugin *)

(** ** Merging, as an operation on configurations *)

Lemma override_string_assoc a b c :
  override_string (override_string a b) c = override_string a (override_string b c).
Proof. unfold override_string. repeat case_decide; congruence. Qed.

Lemma override_num_assoc a b c :
  override_num (override_num a b) c = override_num a (override_num b c).
Proof. unfold override_num. repeat case_decide; congruence. Qed.

(** X1: merging is associative: merging a grandchild into the merge of a
    parent and a child gives the configuration that merging the child and
    the grandchild first, and the result into the parent, gives. *)
Theorem merged_assoc a b c : merged (merged a b) c = merged a (merged b c).
Proof.
  unfold merged. cbn. f_equal; apply override_string_assoc || apply override_num_assoc.
Qed.

(** X2: the all-zero configuration is neutral on both sides: merging it as
    a child changes nothing, and merging any child into it gives the
    child. *)
Theorem merged_zero_neutral p : merged p zero_config = p /\ merged zero_config p = p.
Proof.
  destruct p. split; unfold merged, override_string, override_num; cbn; f_equal;
    by repeat case_decide.
Qed.

(** ** Parsing the configuration *)

Section parse_facts.
Variable Number : Type.
Variable int_of : Number -> Z.
Variable time_ParseDuration : string -> error + Z.
Implicit Types (v : gmap string (Value Number)) (conf : PluginConfig).

Local Abbreviation number' := (optional_number Number int_of).
Local Abbreviation duration' := (optional_duration Number time_ParseDuration).

Lemma required_string_inr v key s :
  required_string Number v key = inr s <-> v !! key = Some (VString s).
Proof.
  unfold required_string. destruct (v !! key) as [[]|]; split; intros; by simplify_eq.
Qed.

Lemma optional_string_inr v key absent s :
  optional_string Number v key absent = inr s <->
  v !! key = Some (VString s) \/ (v !! key = None /\ s = absent).
Proof.
  unfold optional_string. destruct (v !! key) as [[]|];
    (split; [intros; simplify_eq; auto | intros [?|[? ?]]; by simplify_eq]).
Qed.

Lemma optional_number_inr v key absent n :
  number' v key absent = inr n <->
  (exists num, v !! key = Some (VNumber num) /\ n = int_of num) \/
  (v !! key = None /\ n = absent).
Proof.
  unfold optional_number. destruct (v !! key) as [[]|];
    (split; [intros; simplify_eq; eauto | intros [(? & ? & ?)|[? ?]]; by simplify_eq]).
Qed.

Lemma optional_duration_inr v key absent d :
  duration' v key absent = inr d <->
  (exists str, v !! key = Some (VString str) /\ time_ParseDuration str = inr d) \/
  (v !! key = None /\ d = absent).
Proof.
  unfold optional_duration. destruct (v !! key) as [[| | |str| |]|].
  all: try (split; [intros; simplify_eq; eauto | intros [(? & ? & ?)|[? ?]]; by simplify_eq]).
  destruct (time_ParseDuration str) as [err|d'] eqn:Hp; split; intros H.
  - done.
  - destruct H as [(str' & ? & ?)|[? _]]; simplify_eq. congruence.
  - simplify_eq. eauto.
  - destruct H as [(str' & ? & ?)|[? _]]; simplify_eq; congruence.
Qed.

(** [Parse] succeeds with [conf] exactly when each field of [conf] is what
    the step for that field returns. *)
Lemma Parse_inr v conf :
  Parse Number int_of time_ParseDuration (inr v) = inr conf <->
  required_string Number v "s3_bucket" = inr (S3Bucket conf) /\
  required_string Number v "s3_key" = inr (S3Key conf) /\
  optional_string Number v "s3_region" "us-east-1" = inr (S3Region conf) /\
  optional_string Number v "s3_endpoint" "" = inr (S3Endpoint conf) /\
  required_string Number v "redis_addr" = inr (RedisAddr conf) /\
  lenient_string Number v "redis_password" "" = RedisPassword conf /\
  number' v "redis_db" 0 = inr (RedisDB conf) /\
  lenient_string Number v "redis_key_prefix" "shard_router:" = RedisKeyPrefix conf /\
  number' v "memory_cache_size" 1000 = inr (MemoryCacheSize conf) /\
  duration' v "redis_ttl" 300000000000 = inr (RedisTTL conf) /\
  optional_string Number v "tenant_extraction_mode" "subdomain" = inr (TenantExtractionMode conf) /\
  lenient_string Number v "tenant_header_name" "X-Tenant-ID" = TenantHeaderName conf /\
  duration' v "redis_timeout" 2000000000 = inr (RedisTimeout conf) /\
  duration' v "s3_timeout" 5000000000 = inr (S3Timeout conf).
Proof.
  unfold Parse. cbn [try_bind].
  change (5 * 60000000000) with 300000000000.
  change (2 * 1000000000) with 2000000000.
  change (5 * 1000000000) with 5000000000.
  repeat match goal with
  | |- context [try_bind ?m _] =>
      destruct m eqn:?; cbn [try_bind];
      [split; [done | intros ?; destruct_and!; congruence]|]
  end.
  split.
  - intros [= <-]. cbn. by repeat split.
  - intros ?. destruct_and!. destruct conf. cbn in *. by simplify_eq.
Qed.
Lemma required_string_ok v key :
  (exists s, v !! key = Some (VString s)) -> exists s, required_string Number v key = inr s.
Proof. intros [s Hs]. exists s. by apply required_string_inr. Qed.

Lemma optional_string_ok v key absent :
  (forall x, v !! key = Some x -> exists s, x = VString s) ->
  exists s, optional_string Number v key absent = inr s.
Proof.
  intros H. destruct (v !! key) as [x|] eqn:Hx.
  - destruct (H x eq_refl) as [s ->]. exists s. apply optional_string_inr. auto.
  - exists absent. apply optional_string_inr. auto.
Qed.

Lemma optional_number_ok v key absent :
  (forall x, v !! key = Some x -> exists num, x = VNumber num) ->
  exists n, number' v key absent = inr n.
Proof.
  intros H. destruct (v !! key) as [x|] eqn:Hx.
  - destruct (H x eq_refl) as [num ->]. exists (int_of num). apply optional_number_inr. eauto.
  - exists absent. apply optional_number_inr. auto.
Qed.

Lemma optional_duration_ok v key absent :
  (forall x, v !! key = Some x -> exists s d, x = VString s /\ time_ParseDuration s = inr d) ->
  exists d, duration' v key absent = inr d.
Proof.
  intros H. destruct (v !! key) as [x|] eqn:Hx.
  - destruct (H x eq_refl) as (s & d & -> & Hd). exists d. apply optional_duration_inr. eauto.
  - exists absent. apply optional_duration_inr. auto.
Qed.

(** X3: what [Parse] checks.  It accepts a document exactly when the three
    required keys hold strings, the region, endpoint and extraction mode
    hold strings if present, the Redis database and cache size hold
    numbers if present, and the TTL and the two timeouts, if present, hold
    strings that [time.ParseDuration] accepts.  Nothing else is checked:
    not the content of a string, not the sign of a number, not the type of
    the password, key prefix or header name, not unknown keys. *)
Theorem Parse_accepts v :
  (exists conf, Parse Number int_of time_ParseDuration (inr v) = inr conf) <->
  (forall key, key ∈ ["s3_bucket"; "s3_key"; "redis_addr"] ->
     exists s, v !! key = Some (VString s)) /\
  (forall key x, key ∈ ["s3_region"; "s3_endpoint"; "tenant_extraction_mode"] ->
     v !! key = Some x -> exists s, x = VString s) /\
  (forall key x, key ∈ ["redis_db"; "memory_cache_size"] ->
     v !! key = Some x -> exists num, x = VNumber num) /\
  (forall key x, key ∈ ["redis_ttl"; "redis_timeout"; "s3_timeout"] ->
     v !! key = Some x -> exists s d, x = VString s /\ time_ParseDuration s = inr d).
Proof.
  split.
  - intros [conf H]. apply Parse_inr in H.
    destruct H as (Hb & Hk & Hr & He & Ha & _ & Hdb & _ & Hsz & Httl & Hm & _ & Hrt & Hst).
    apply required_string_inr in Hb, Hk, Ha.
    apply optional_string_inr in Hr, He, Hm.
    apply optional_number_inr in Hdb, Hsz.
    apply optional_duration_inr in Httl, Hrt, Hst.
    repeat apply conj.
    + intros key Hkey. set_unfold. destruct Hkey as [->|[->|[->|[]]]]; eauto.
    + intros key x Hkey Hx. set_unfold.
      destruct Hkey as [->|[->|[->|[]]]];
        match goal with H : _ \/ _ |- _ => destruct H as [?|[? _]]; simplify_eq; eauto; fail end.
    + intros key x Hkey Hx. set_unfold.
      destruct Hkey as [->|[->|[]]];
        match goal with
        | H : (exists _, _) \/ _ |- _ =>
            destruct H as [(? & ? & _)|[? _]]; simplify_eq; eauto; fail
        end.
    + intros key x Hkey Hx. set_unfold.
      destruct Hkey as [->|[->|[->|[]]]];
        match goal with
        | H : (exists _, _) \/ _ |- _ =>
            destruct H as [(? & ? & ?)|[? _]]; simplify_eq; eauto; fail
        end.
  - intros (Hreq & Hstr & Hnum & Hdur).
    destruct (required_string_ok v "s3_bucket") as [b Hb]; [apply Hreq; set_solver|].
    destruct (required_string_ok v "s3_key") as [k Hk]; [apply Hreq; set_solver|].
    destruct (required_string_ok v "redis_addr") as [a Ha]; [apply Hreq; set_solver|].
    destruct (optional_string_ok v "s3_region" "us-east-1") as [r Hr];
      [intros x; apply Hstr; set_solver|].
    destruct (optional_string_ok v "s3_endpoint" "") as [e He];
      [intros x; apply Hstr; set_solver|].
    destruct (optional_string_ok v "tenant_extraction_mode" "subdomain") as [m Hm];
      [intros x; apply Hstr; set_solver|].
    destruct (optional_number_ok v "redis_db" 0) as [db Hdb];
      [intros x; apply Hnum; set_solver|].
    destruct (optional_number_ok v "memory_cache_size" 1000) as [sz Hsz];
      [intros x; apply Hnum; set_solver|].
    destruct (optional_duration_ok v "redis_ttl" 300000000000) as [ttl Httl];
      [intros x; apply Hdur; set_solver|].
    destruct (optional_duration_ok v "redis_timeout" 2000000000) as [rt Hrt];
      [intros x; apply Hdur; set_solver|].
    destruct (optional_duration_ok v "s3_timeout" 5000000000) as [st' Hst];
      [intros x; apply Hdur; set_solver|].
    exists {| S3Bucket := b; S3Key := k; S3Region := r; S3Endpoint := e; RedisAddr := a;
              RedisPassword := lenient_string Number v "redis_password" "";
              RedisDB := db;
              RedisKeyPrefix := lenient_string Number v "redis_key_prefix" "shard_router:";
              MemoryCacheSize := sz; RedisTTL := ttl; TenantExtractionMode := m;
              TenantHeaderName := lenient_string Number v "tenant_header_name" "X-Tenant-ID";
              RedisTimeout := rt; S3Timeout := st' |}.
    apply Parse_inr. cbn. by repeat split.
Qed.

(** The fields of a parsed configuration whose keys are absent. *)
Lemma Parse_absent_keys v conf :
  Parse Number int_of time_ParseDuration (inr v) = inr conf ->
  (v !! "s3_region" = None -> S3Region conf = "us-east-1") /\
  (v !! "s3_endpoint" = None -> S3Endpoint conf = "") /\
  (v !! "redis_password" = None -> RedisPassword conf = "") /\
  (v !! "redis_db" = None -> RedisDB conf = 0) /\
  (v !! "redis_key_prefix" = None -> RedisKeyPrefix conf = "shard_router:") /\
  (v !! "memory_cache_size" = None -> MemoryCacheSize conf = 1000) /\
  (v !! "redis_ttl" = None -> RedisTTL conf = 300000000000) /\
  (v !! "tenant_extraction_mode" = None -> TenantExtractionMode conf = "subdomain") /\
  (v !! "tenant_header_name" = None -> TenantHeaderName conf = "X-Tenant-ID") /\
  (v !! "redis_timeout" = None -> RedisTimeout conf = 2000000000) /\
  (v !! "s3_timeout" = None -> S3Timeout conf = 5000000000).
Proof.
  intros H. apply Parse_inr in H.
  destruct H as (_ & _ & Hr & He & _ & Hpw & Hdb & Hpre & Hsz & Httl & Hm & Hhn & Hrt & Hst).
  apply optional_string_inr in Hr, He, Hm.
  apply optional_number_inr in Hdb, Hsz.
  apply optional_duration_inr in Httl, Hrt, Hst.
  unfold lenient_string in *.
  repeat apply conj; intros Hnone; rewrite Hnone in *; try done;
    match goal with
    | H : (exists _, _) \/ _ |- _ => destruct H as [(? & ? & _)|[_ ?]]; done
    | H : _ \/ _ |- _ => destruct H as [?|[_ ?]]; done
    end.
Qed.

(** X4: the defaults.  In a configuration that [Parse] returns, a field
    whose key is absent from the document has its default: region
    "us-east-1", no endpoint, no password, database 0, key prefix
    "shard_router:", cache size 1000, TTL 5 minutes, mode "subdomain",
    header "X-Tenant-ID", Redis timeout 2 seconds, S3 timeout 5 seconds. *)
Theorem Parse_defaults v conf :
  Parse Number int_of time_ParseDuration (inr v) = inr conf ->
  (v !! "s3_region" = None -> S3Region conf = "us-east-1") /\
  (v !! "s3_endpoint" = None -> S3Endpoint conf = "") /\
  (v !! "redis_password" = None -> RedisPassword conf = "") /\
  (v !! "redis_db" = None -> RedisDB conf = 0) /\
  (v !! "redis_key_prefix" = None -> RedisKeyPrefix conf = "shard_router:") /\
  (v !! "memory_cache_size" = None -> MemoryCacheSize conf = 1000) /\
  (v !! "redis_ttl" = None -> RedisTTL conf = 300000000000) /\
  (v !! "tenant_extraction_mode" = None -> TenantExtractionMode conf = "subdomain") /\
  (v !! "tenant_header_name" = None -> TenantHeaderName conf = "X-Tenant-ID") /\
  (v !! "redis_timeout" = None -> RedisTimeout conf = 2000000000) /\
  (v !! "s3_timeout" = None -> S3Timeout conf = 5000000000).
Proof. apply Parse_absent_keys. Qed.
(** X5: a document without "s3_bucket" is refused with "missing s3_bucket"
    whatever else it holds; with the bucket there, one without "s3_key" is
    refused with "missing s3_key"; and an error of the unmarshalling is
    returned as it is. *)
Theorem Parse_missing_required v :
  (forall err, Parse Number int_of time_ParseDuration (inl err) = inl err) /\
  (v !! "s3_bucket" = None ->
   Parse Number int_of time_ParseDuration (inr v) = inl (errorString "missing s3_bucket")) /\
  (forall s, v !! "s3_bucket" = Some (VString s) -> v !! "s3_key" = None ->
     Parse Number int_of time_ParseDuration (inr v) = inl (errorString "missing s3_key")).
Proof.
  repeat apply conj.
  - done.
  - intros Hb. unfold Parse, try_bind, required_string. by rewrite Hb.
  - intros s Hb Hk. unfold Parse, try_bind, required_string. by rewrite Hb, Hk.
Qed.

Lemma lenient_string_non_string v key absent x :
  (forall s, x <> VString s) ->
  lenient_string Number (<[key := x]> v) key absent = "".
Proof.
  intros Hx. unfold lenient_string. rewrite lookup_insert_eq.
  destruct x; try done. by destruct (Hx str).
Qed.

(** X6: the password, the key prefix and the header name are not
    type-checked: a value that is not a string is taken for the empty
    string, without an error and without the default.  The document with
    such a value parses to exactly what the document with "" in its place
    parses to. *)
Theorem Parse_non_string_is_empty v key x :
  key ∈ ["redis_password"; "redis_key_prefix"; "tenant_header_name"] ->
  (forall s, x <> VString s) ->
  Parse Number int_of time_ParseDuration (inr (<[key := x]> v)) =
  Parse Number int_of time_ParseDuration (inr (<[key := VString ""]> v)).
Proof.
  intros Hkey Hx. set_unfold.
  destruct Hkey as [->|[->|[->|[]]]];
    unfold Parse, required_string, optional_string, optional_number, optional_duration;
    rewrite !lenient_string_non_string by done;
    unfold lenient_string; rewrite ?lookup_insert_eq, !lookup_insert_ne by done;
    reflexivity.
Qed.

(** X7: [Parse] accepts any number as cache size, but [filterFactory]
    panics on a configuration whose size is not positive; with the key
    absent the filter is built, with a cold cache of capacity 1000. *)
Theorem Parse_then_filterFactory v conf :
  Parse Number int_of time_ParseDuration (inr v) = inr conf ->
  (forall num sess_err,
     v !! "memory_cache_size" = Some (VNumber num) -> int_of num <= 0 ->
     filterFactory conf sess_err =
     inl "failed to create memory cache: must provide a positive size") /\
  (v !! "memory_cache_size" = None ->
   exists f, filterFactory conf None = inr f /\
             memoryCache f = Some {| lru_size := 1000; lru_items := [] |}).
Proof.
  intros H. apply Parse_inr in H.
  destruct H as (_ & _ & _ & _ & _ & _ & _ & _ & Hsz & _).
  apply optional_number_inr in Hsz. split.
  - intros num sess Hnum Hle.
    destruct Hsz as [(num' & ? & Hsz)|[? _]]; simplify_eq.
    unfold filterFactory, lru_New. rewrite Hsz. by destruct (decide (int_of num' <= 0)).
  - intros Hnone. destruct Hsz as [(num' & ? & _)|[_ Hsz]]; simplify_eq.
    unfold filterFactory, lru_New. rewrite Hsz. cbn. eexists. split; reflexivity.
Qed.

(** X8: defaults override.  A child configuration that [Parse] built from
    a document without the key carries the default, which is not a zero
    value, for the region, the key prefix, the cache size, the TTL, the
    mode, the header name and the two timeouts; merged into a parent it
    replaces the parent's setting by that default.  Only the endpoint, the
    password and the database of the parent pass through an absent key. *)
Theorem Parse_child_overrides_with_defaults v child parent :
  Parse Number int_of time_ParseDuration (inr v) = inr child ->
  (v !! "s3_region" = None -> S3Region (merged parent child) = "us-east-1") /\
  (v !! "redis_key_prefix" = None -> RedisKeyPrefix (merged parent child) = "shard_router:") /\
  (v !! "memory_cache_size" = None -> MemoryCacheSize (merged parent child) = 1000) /\
  (v !! "redis_ttl" = None -> RedisTTL (merged parent child) = 300000000000) /\
  (v !! "tenant_extraction_mode" = None ->
   TenantExtractionMode (merged parent child) = "subdomain") /\
  (v !! "tenant_header_name" = None -> TenantHeaderName (merged parent child) = "X-Tenant-ID") /\
  (v !! "redis_timeout" = None -> RedisTimeout (merged parent child) = 2000000000) /\
  (v !! "s3_timeout" = None -> S3Timeout (merged parent child) = 5000000000) /\
  (v !! "s3_endpoint" = None -> S3Endpoint (merged parent child) = S3Endpoint parent) /\
  (v !! "redis_password" = None -> RedisPassword (merged parent child) = RedisPassword parent) /\
  (v !! "redis_db" = None -> RedisDB (merged parent child) = RedisDB parent).
Proof.
  intros H. pose proof (Parse_absent_keys v child H) as
    (Hr & He & Hpw & Hdb & Hpre & Hsz & Httl & Hm & Hhn & Hrt & Hst).
  unfold merged. cbn.
  repeat apply conj; intros Hnone;
    first [rewrite (Hr Hnone) | rewrite (Hpre Hnone) | rewrite (Hsz Hnone)
          | rewrite (Httl Hnone) | rewrite (Hm Hnone) | rewrite (Hhn Hnone)
          | rewrite (Hrt Hnone) | rewrite (Hst Hnone) | rewrite (He Hnone)
          | rewrite (Hpw Hnone) | rewrite (Hdb Hnone)]; reflexivity.
Qed.
End parse_facts.

Lemma demo_doc_parsed :
  Parse Z id demo_ParseDuration (inr demo_doc) =
  inr {| S3Bucket := "tenant-mappings"; S3Key := "mappings.json"; S3Region := "us-east-1";
         S3Endpoint := ""; RedisAddr := "redis:6379"; RedisPassword := ""; RedisDB := 0;
         RedisKeyPrefix := "shard_router:"; MemoryCacheSize := 1000; RedisTTL := 300000000000;
         TenantExtractionMode := "subdomain"; TenantHeaderName := "X-Tenant-ID";
         RedisTimeout := 2000000000; S3Timeout := 5000000000 |}.
Proof. reflexivity. Defined.

Lemma Parse_defaults_witness :
  exists conf, Parse Z id demo_ParseDuration (inr demo_doc) = inr conf /\
               MemoryCacheSize conf = 1000 /\ RedisKeyPrefix conf = "shard_router:".
Proof.
  eexists. split; [exact demo_doc_parsed|].
  pose proof (Parse_defaults Z id demo_ParseDuration demo_doc _ demo_doc_parsed) as
    (_ & _ & _ & _ & Hpre & Hsz & _).
  split; [apply Hsz | apply Hpre]; reflexivity.
Defined.

Lemma Parse_non_string_is_empty_witness :
  Parse Z id demo_ParseDuration (inr (<["redis_key_prefix" := VNumber 5]> demo_doc)) =
  Parse Z id demo_ParseDuration (inr (<["redis_key_prefix" := VString ""]> demo_doc)).
Proof.
  apply (Parse_non_string_is_empty Z id demo_ParseDuration demo_doc "redis_key_prefix" (VNumber 5)).
  - apply list_elem_of_further, list_elem_of_here.
  - discriminate.
Defined.

Lemma Parse_then_filterFactory_witness :
  exists conf,
    Parse Z id demo_ParseDuration (inr (<["memory_cache_size" := VNumber 0]> demo_doc)) = inr conf /\
    filterFactory conf None = inl "failed to create memory cache: must provide a positive size".
Proof.
  eexists. split; [reflexivity|].
  refine (proj1 (Parse_then_filterFactory Z id demo_ParseDuration
                   (<["memory_cache_size" := VNumber 0]> demo_doc) _ eq_refl) 0 None eq_refl _).
  reflexivity.
Defined.

Lemma Parse_child_overrides_with_defaults_witness :
  S3Region (merged demo_parent
              {| S3Bucket := "tenant-mappings"; S3Key := "mappings.json";
                 S3Region := "us-east-1"; S3Endpoint := ""; RedisAddr := "redis:6379";
                 RedisPassword := ""; RedisDB := 0; RedisKeyPrefix := "shard_router:";
                 MemoryCacheSize := 1000; RedisTTL := 300000000000;
                 TenantExtractionMode := "subdomain"; TenantHeaderName := "X-Tenant-ID";
                 RedisTimeout := 2000000000; S3Timeout := 5000000000 |}) = "us-east-1" /\
  MemoryCacheSize (merged demo_parent
              {| S3Bucket := "tenant-mappings"; S3Key := "mappings.json";
                 S3Region := "us-east-1"; S3Endpoint := ""; RedisAddr := "redis:6379";
                 RedisPassword := ""; RedisDB := 0; RedisKeyPrefix := "shard_router:";
                 MemoryCacheSize := 1000; RedisTTL := 300000000000;
                 TenantExtractionMode := "subdomain"; TenantHeaderName := "X-Tenant-ID";
                 RedisTimeout := 2000000000; S3Timeout := 5000000000 |}) = 1000.
Proof.
  pose proof (Parse_child_overrides_with_defaults Z id demo_ParseDuration demo_doc _ demo_parent
                demo_doc_parsed) as (Hr & _ & Hsz & _).
  split; [apply Hr | apply Hsz]; reflexivity.
Defined.

(** ** Building the filter *)

(** X9: [filterFactory] panics exactly when the cache size of the
    configuration is not positive (reported first) or the AWS session
    cannot be created.  Otherwise it returns a filter that keeps the
    configuration, has no current shard and a cold memory cache, and whose
    S3 client uses a custom endpoint, with path-style addressing forced,
    exactly when the configuration names one. *)
Theorem filterFactory_outcomes conf :
  (MemoryCacheSize conf <= 0 ->
   forall sess_err, filterFactory conf sess_err =
                    inl "failed to create memory cache: must provide a positive size") /\
  (0 < MemoryCacheSize conf ->
   forall err, filterFactory conf (Some err) =
               inl ("failed to create AWS session: " +:+ Error err)) /\
  (0 < MemoryCacheSize conf ->
   exists f cl,
     filterFactory conf None = inr f /\ config f = conf /\ currentShardID f = "" /\
     (forall tenantID, local_miss f tenantID) /\
     s3Client f = Some cl /\ Region cl = S3Region conf /\
     (S3Endpoint conf = "" -> Endpoint cl = None /\ S3ForcePathStyle cl = None) /\
     (S3Endpoint conf <> "" ->
      Endpoint cl = Some (S3Endpoint conf) /\ S3ForcePathStyle cl = Some true)).
Proof.
  unfold filterFactory, lru_New. repeat apply conj.
  - intros Hle sess. by destruct (decide (MemoryCacheSize conf <= 0)).
  - intros Hpos err. destruct (decide (MemoryCacheSize conf <= 0)); [lia | done].
  - intros Hpos. destruct (decide (MemoryCacheSize conf <= 0)); [lia|].
    eexists. eexists. split; [reflexivity|]. cbn.
    repeat apply conj; try done; destruct (decide (S3Endpoint conf = "")); by cbn.
Qed.

Lemma filterFactory_outcomes_witness :
  filterFactory zero_config None =
  inl "failed to create memory cache: must provide a positive size".
Proof.
  apply (proj1 (filterFactory_outcomes zero_config)). cbn. lia.
Defined.

(** ** Splitting host names *)

Lemma strings_Split_nonempty s c : strings_Split s c <> [].
Proof.
  destruct s as [|c' r]; cbn; [done|].
  destruct (decide (c' = c)); [done|]. by destruct (strings_Split r c).
Qed.

(** The first piece of a split is the part before the separator. *)
Lemma strings_Split_head s c : nth 0 (strings_Split s c) "" = before c s.
Proof.
  induction s as [|c' r IH]; cbn; [done|].
  destruct (decide (c' = c)); [done|].
  destruct (strings_Split r c) as [|h t] eqn:Hsplit.
  - by destruct (strings_Split_nonempty r c).
  - cbn in *. by rewrite IH.
Qed.

(** A split has two pieces or more exactly when the separator occurs. *)
Lemma strings_Split_length s c : (2 <= length (strings_Split s c))%nat <-> occurs c s.
Proof.
  induction s as [|c' r IH]; cbn.
  - split; [lia | done].
  - destruct (decide (c' = c)) as [->|Hne].
    + cbn. pose proof (strings_Split_nonempty r c).
      destruct (strings_Split r c); [done|]. cbn. split; [auto | lia].
    + destruct (strings_Split r c) as [|h t] eqn:Hsplit.
      * by destruct (strings_Split_nonempty r c).
      * cbn in *. rewrite IH. split; [auto | intros [?|?]; done].
Qed.

Lemma before_no_sep c s : ~ occurs c (before c s).
Proof.
  induction s as [|c' r IH]; cbn; [tauto|].
  destruct (decide (c' = c)); cbn; tauto.
Qed.

Lemma before_absent c s : ~ occurs c s -> before c s = s.
Proof.
  induction s as [|c' r IH]; cbn; [done|]. intros Hno.
  destruct (decide (c' = c)); [tauto|]. rewrite IH; [done | tauto].
Qed.

Lemma append_empty (s : string) : "" +:+ s = s.
Proof. reflexivity. Qed.

Lemma append_String c (s r : string) : String c s +:+ r = String c (s +:+ r).
Proof. reflexivity. Qed.

Lemma before_app c t r : ~ occurs c t -> before c (t +:+ String c r) = t.
Proof.
  induction t as [|c' t IH]; rewrite ?append_empty, ?append_String; cbn; intros Hno.
  - by destruct (decide (c = c)).
  - destruct (decide (c' = c)); [tauto|]. rewrite IH; [done | tauto].
Qed.

Lemma occurs_app c t r : occurs c (t +:+ String c r).
Proof. induction t as [|c' t IH]; rewrite ?append_empty, ?append_String; cbn; auto. Qed.

Lemma occurs_app_r c t r : occurs c r -> occurs c (t +:+ r).
Proof. induction t as [|c' t IH]; rewrite ?append_empty, ?append_String; cbn; auto. Qed.

Lemma occurs_before c c' s : occurs c (before c' s) -> occurs c s.
Proof.
  induction s as [|c0 r IH]; cbn; [done|].
  destruct (decide (c0 = c')); cbn; [done|]. intros [?|?]; auto.
Qed.

(** A string in which [c] occurs is the part before [c], then [c], then
    the rest. *)
Lemma occurs_split c s : occurs c s -> exists rest, s = before c s +:+ String c rest.
Proof.
  induction s as [|c' r IH]; cbn; [done|]. intros Hocc.
  destruct (decide (c' = c)) as [->|Hne]; [by exists r|].
  destruct Hocc as [?|Hocc]; [done|]. destruct (IH Hocc) as [rest Hrest].
  exists rest. rewrite append_String. by rewrite <- Hrest.
Qed.

(** In subdomain mode the tenant is the part of the host before its first
    "." or ":", provided the host has a "." and that part is not empty. *)
Lemma extractTenantFromHost_subdomain f host :
  TenantExtractionMode (config f) = "subdomain" ->
  (occurs "." host -> before ":" (before "." host) <> "" ->
   extractTenantFromHost f host = (before ":" (before "." host), None)) /\
  (~ occurs "." host \/ before ":" (before "." host) = "" ->
   extractTenantFromHost f host =
   ("", Some (errorString ("unable to extract tenant from host: " +:+ host)))).
Proof.
  intros Hmode. unfold extractTenantFromHost. rewrite Hmode. cbn.
  rewrite !strings_Split_head. split.
  - intros Hocc Hne. apply strings_Split_length in Hocc.
    destruct (decide (2 <= length (strings_Split host "."))%nat); [|done].
    by destruct (decide (before ":" (before "." host) <> "")).
  - intros Hfail. destruct (decide (2 <= length (strings_Split host "."))%nat) as [Hlen|]; [|done].
    apply strings_Split_length in Hlen.
    destruct (decide (before ":" (before "." host) <> "")); [|done].
    destruct Hfail; done.
Qed.

Lemma occurs_dec c s : {occurs c s} + {~ occurs c s}.
Proof.
  induction s as [|c' r IH]; cbn; [right; tauto|].
  destruct (decide (c' = c)); [by left; left|].
  destruct IH; [by left; right | right; tauto].
Qed.

Lemma occurs_append c a b : occurs c (a +:+ b) <-> occurs c a \/ occurs c b.
Proof.
  induction a as [|c' a IH]; rewrite ?append_empty, ?append_String; cbn; [tauto|].
  rewrite IH. tauto.
Qed.

Lemma append_assoc (a b c : string) : (a +:+ b) +:+ c = a +:+ (b +:+ c).
Proof.
  induction a as [|c' a IH]; rewrite ?append_empty, ?append_String; [done|]. by rewrite IH.
Qed.

(** ** Tenant extraction *)

(** X10: round trip.  In subdomain mode, a host name made of a tenant (not
    empty, without "." or ":"), a "." and anything after it is resolved to
    that tenant; so is the host name that has a ":" and a port between the
    tenant and the first ".". *)
Theorem extractTenantFromHost_round_trip f tenant rest :
  TenantExtractionMode (config f) = "subdomain" ->
  tenant <> "" -> ~ occurs "." tenant -> ~ occurs ":" tenant ->
  extractTenantFromHost f (tenant +:+ "." +:+ rest) = (tenant, None) /\
  (forall port, ~ occurs "." port ->
     extractTenantFromHost f (tenant +:+ ":" +:+ port +:+ "." +:+ rest) = (tenant, None)).
Proof.
  intros Hmode Hne Hdot Hcolon.
  destruct (extractTenantFromHost_subdomain f (tenant +:+ "." +:+ rest) Hmode) as [Hok _].
  split.
  - change ("." +:+ rest) with (String "." rest) in *.
    rewrite (before_app "." tenant rest Hdot), (before_absent ":" tenant Hcolon) in Hok.
    apply Hok; [apply occurs_app | done].
  - intros port Hport.
    destruct (extractTenantFromHost_subdomain f (tenant +:+ ":" +:+ port +:+ "." +:+ rest) Hmode)
      as [Hok' _].
    change (tenant +:+ ":" +:+ port +:+ "." +:+ rest)
      with (tenant +:+ (String ":" port +:+ String "." rest)) in *.
    rewrite <- append_assoc in Hok'.
    rewrite (before_app "." (tenant +:+ String ":" port) rest) in Hok'.
    + rewrite (before_app ":" tenant port Hcolon) in Hok'.
      rewrite <- append_assoc. apply Hok'; [apply occurs_app | done].
    + rewrite occurs_append. cbn. intros [?|[?|?]]; done.
Qed.

Lemma extractTenantFromHost_round_trip_witness :
  extractTenantFromHost demo_filter ("tenant1" +:+ "." +:+ "example.com") = ("tenant1", None).
Proof.
  refine (proj1 (extractTenantFromHost_round_trip demo_filter "tenant1" "example.com"
                   eq_refl _ _ _)).
  - discriminate.
  - cbn. intros H. decompose [or] H; discriminate || done.
  - cbn. intros H. decompose [or] H; discriminate || done.
Defined.

(** X11: what a successful extraction guarantees.  The mode is
    "subdomain"; the tenant is not empty and has no "." and no ":"; the
    host name contains a "." and starts with the tenant, followed directly
    by a "." or a ":". *)
Theorem extractTenantFromHost_success f host tenant :
  extractTenantFromHost f host = (tenant, None) ->
  TenantExtractionMode (config f) = "subdomain" /\
  tenant <> "" /\ ~ occurs "." tenant /\ ~ occurs ":" tenant /\ occurs "." host /\
  exists c rest, (c = "."%char \/ c = ":"%char) /\ host = tenant +:+ String c rest.
Proof.
  intros Hrun.
  destruct (decide (TenantExtractionMode (config f) = "subdomain")) as [Hmode|Hmode].
  2: { unfold extractTenantFromHost in Hrun.
       by destruct (decide (TenantExtractionMode (config f) = "subdomain")). }
  destruct (extractTenantFromHost_subdomain f host Hmode) as [Hok Hfail].
  destruct (occurs_dec "." host) as [Hocc|Hno]; [|rewrite Hfail in Hrun by auto; done].
  destruct (decide (before ":" (before "." host) = "")) as [Hempty|Hne];
    [rewrite Hfail in Hrun by auto; done|].
  rewrite (Hok Hocc Hne) in Hrun. injection Hrun as <-.
  repeat apply conj; [done | done | | apply before_no_sep | done |].
  - intros H%occurs_before. by apply before_no_sep in H.
  - destruct (occurs_split "." host Hocc) as [rest Hrest].
    destruct (occurs_dec ":" (before "." host)) as [Hcol|Hnocol].
    + destruct (occurs_split ":" _ Hcol) as [rest' Hrest'].
      exists ":"%char, (rest' +:+ String "." rest). split; [auto|].
      rewrite Hrest at 1. rewrite Hrest' at 1. by rewrite append_assoc.
    + exists "."%char, rest. split; [auto|].
      rewrite (before_absent ":" _ Hnocol). exact Hrest.
Qed.

Lemma extractTenantFromHost_success_witness :
  TenantExtractionMode (config demo_filter) = "subdomain" /\ "tenant1" <> "".
Proof.
  pose proof (extractTenantFromHost_success demo_filter "tenant1:8080.example.com" "tenant1"
                eq_refl) as (Hm & Hne & _).
  exact (conj Hm Hne).
Defined.

(** X12: what extraction refuses.  In a mode other than "subdomain" every
    host name is refused as an unsupported mode (so also in "header" mode);
    in subdomain mode a host name without a "." is refused (for instance a
    bare name with a port), and so is one that begins with "." or ":"; a
    refusal comes with an empty tenant. *)
Theorem extractTenantFromHost_refusals f host :
  (TenantExtractionMode (config f) <> "subdomain" ->
   extractTenantFromHost f host =
   ("", Some (errorString ("unsupported tenant extraction mode: "
                           +:+ TenantExtractionMode (config f))))) /\
  (TenantExtractionMode (config f) = "subdomain" -> ~ occurs "." host ->
   extractTenantFromHost f host =
   ("", Some (errorString ("unable to extract tenant from host: " +:+ host)))) /\
  (TenantExtractionMode (config f) = "subdomain" ->
   forall c rest, c = "."%char \/ c = ":"%char -> host = String c rest ->
   extractTenantFromHost f host =
   ("", Some (errorString ("unable to extract tenant from host: " +:+ host)))) /\
  (forall tenant err, extractTenantFromHost f host = (tenant, Some err) -> tenant = "").
Proof.
  repeat apply conj.
  - intros Hmode. unfold extractTenantFromHost.
    by destruct (decide (TenantExtractionMode (config f) = "subdomain")).
  - intros Hmode Hno. by apply extractTenantFromHost_subdomain; auto.
  - intros Hmode c rest Hc ->. apply extractTenantFromHost_subdomain; [done|]. right.
    destruct Hc as [->| ->]; cbn; [done|].
    destruct (decide (":"%char = "."%char)); [done|]. cbn.
    by destruct (decide (":"%char = ":"%char)).
  - intros tenant err. unfold extractTenantFromHost.
    repeat case_decide; intros; by simplify_eq.
Qed.

(** ** A lookup from any state *)

(** What a lookup returns, and the filter, the world and the calls it
    adds, do not depend on the calls and log lines that came before. *)
Lemma orchestratedLookup_frame tenantID st :
  exists ls,
    orchestratedLookup tenantID st =
    ((orchestratedLookup tenantID (start (st_filter st) (st_world st))).1,
     after st
       (st_filter (orchestratedLookup tenantID (start (st_filter st) (st_world st))).2)
       (st_world (orchestratedLookup tenantID (start (st_filter st) (st_world st))).2)
       (st_calls (orchestratedLookup tenantID (start (st_filter st) (st_world st))).2) ls).
Proof.
  set (f := st_filter st). set (w := st_world st).
  destruct (local_cases f tenantID) as [[s Hhit]|Hmiss].
  { destruct (orchestratedLookup_local_hit tenantID st s Hhit) as (c & ls & Hc & ->).
    destruct (orchestratedLookup_local_hit tenantID (start f w) s Hhit) as (c' & ls' & Hc' & ->).
    cbn in Hc'. fold f in Hc. assert (c' = c) as -> by congruence.
    eexists. reflexivity. }
  destruct (shared_cases f w tenantID) as [[s Hhit]|Hno].
  { destruct (orchestratedLookup_shared_hit tenantID st s Hmiss Hhit) as [ls ->].
    destruct (orchestratedLookup_shared_hit tenantID (start f w) s Hmiss Hhit) as [ls' ->].
    eexists. reflexivity. }
  destruct (orchestratedLookup_fallthrough tenantID st Hmiss Hno) as [ls ->].
  destruct (orchestratedLookup_fallthrough tenantID (start f w) Hmiss Hno) as [ls' ->].
  cbn [st_filter st_world start]. fold f w.
  destruct (store_cases f w) as [[e Hfail]|[Hc [d Hd]]].
  { edestruct (tier3_failure tenantID (after st f w
                 (mem_get_calls f tenantID ++ redis_get_calls f tenantID) ls)) as [l1 ->]; [exact Hfail|].
    edestruct (tier3_failure tenantID (after (start f w) f w
                 (mem_get_calls f tenantID ++ redis_get_calls f tenantID) ls')) as [l2 ->]; [exact Hfail|].
    rewrite after_after. cbn. eexists. reflexivity. }
  destruct (searchMappings tenantID (Mappings d)) as [s|] eqn:Hs;
    [destruct (decide (s = "")) as [->|Hne]|].
  - edestruct (tier3_not_mapped tenantID (after st f w
                 (mem_get_calls f tenantID ++ redis_get_calls f tenantID) ls)) as [l1 ->];
      [exact Hc | exact Hd | by rewrite Hs |].
    edestruct (tier3_not_mapped tenantID (after (start f w) f w
                 (mem_get_calls f tenantID ++ redis_get_calls f tenantID) ls')) as [l2 ->];
      [exact Hc | exact Hd | by rewrite Hs |].
    rewrite after_after. cbn. eexists. reflexivity.
  - edestruct (tier3_found tenantID (after st f w
                 (mem_get_calls f tenantID ++ redis_get_calls f tenantID) ls)) as [l1 [-> _]];
      [exact Hc | exact Hd | exact Hs | exact Hne |].
    edestruct (tier3_found tenantID (after (start f w) f w
                 (mem_get_calls f tenantID ++ redis_get_calls f tenantID) ls')) as [l2 [-> _]];
      [exact Hc | exact Hd | exact Hs | exact Hne |].
    rewrite after_after. cbn. eexists. reflexivity.
  - edestruct (tier3_not_mapped tenantID (after st f w
                 (mem_get_calls f tenantID ++ redis_get_calls f tenantID) ls)) as [l1 ->];
      [exact Hc | exact Hd | by rewrite Hs |].
    edestruct (tier3_not_mapped tenantID (after (start f w) f w
                 (mem_get_calls f tenantID ++ redis_get_calls f tenantID) ls')) as [l2 ->];
      [exact Hc | exact Hd | by rewrite Hs |].
    rewrite after_after. cbn. eexists. reflexivity.
Qed.

(** ** Handling a request *)

(** The filter that [DecodeHeaders] leaves when it looks [tenantID] up: the
    one the lookup leaves, with the shard found, if any, as current shard. *)
Lemma DecodeHeaders_resolve_run tenantID f w :
  tenantID <> "" ->
  exists ls,
    DecodeHeaders_resolve tenantID (start f w) =
    (Continue,
     {| st_filter :=
          match (orchestratedLookup tenantID (start f w)).1 with
          | (shardID, None) =>
              with_shard (st_filter (orchestratedLookup tenantID (start f w)).2) shardID
          | (_, Some _) => st_filter (orchestratedLookup tenantID (start f w)).2
          end;
        st_world := st_world (orchestratedLookup tenantID (start f w)).2;
        st_calls := st_calls (orchestratedLookup tenantID (start f w)).2;
        st_logs := ls |}).
Proof.
  intros Hne. unfold DecodeHeaders_resolve.
  destruct (decide (tenantID = "")); [done|].
  rewrite (bind_run (LogDebugf _) _ _ _ _ (logf_run _ _ _)).
  destruct (orchestratedLookup_frame tenantID
              (after (start f w) (st_filter (start f w)) (st_world (start f w)) []
                 [(Debug, "Extracted tenant ID: " +:+ tenantID)])) as [ls Hrun].
  cbn [st_filter st_world after start] in Hrun.
  rewrite (bind_run _ _ _ _ _ Hrun).
  destruct (orchestratedLookup tenantID (start f w)) as [[s [err|]] s']; cbn [fst snd].
  - rewrite (bind_run (LogWarnf _) _ _ _ _ (logf_run _ _ _)), !after_after.
    unfold after, start, ret. cbn. rewrite ?app_nil_r. eexists. reflexivity.
  - rewrite after_after. unfold after, start, bind, setCurrentShardID, LogDebugf, logf, ret, with_shard.
    cbn. eexists. reflexivity.
Qed.

Lemma DecodeHeaders_resolve_Continue tenantID st :
  (DecodeHeaders_resolve tenantID st).1 = Continue.
Proof.
  unfold DecodeHeaders_resolve. destruct (decide (tenantID = "")); [done|].
  rewrite (bind_run (LogDebugf _) _ _ _ _ (logf_run _ _ _)). unfold bind at 1.
  by destruct (orchestratedLookup tenantID _) as [[s [err|]] s'].
Qed.

Lemma DecodeHeaders_with_tenant f w header endStream tenantID :
  request_tenant f header tenantID ->
  DecodeHeaders header endStream (start f w) = DecodeHeaders_resolve tenantID (start f w).
Proof.
  intros [Hnone [(Hmode & Hget & _)|(Hmode & host & Hget & Hext)]];
    unfold DecodeHeaders; rewrite Hnone; unfold bind at 1, getFilter; cbn [st_filter start].
  - destruct (decide (TenantExtractionMode (config f) = "header")); [|done]. by rewrite Hget.
  - destruct (decide (TenantExtractionMode (config f) = "header")); [done|].
    by rewrite Hget, Hext.
Qed.

Lemma DecodeHeaders_without_tenant f w header endStream :
  request_without_tenant f header ->
  exists ls,
    DecodeHeaders header endStream (start f w) =
    (Continue, {| st_filter := f; st_world := w; st_calls := []; st_logs := ls |}).
Proof.
  unfold DecodeHeaders.
  intros [[x Hx]|[(Hmode & Hget)|(Hmode & Hget)]].
  - rewrite Hx. eexists. reflexivity.
  - destruct (header !! "X-SHARD-ID"); [eexists; reflexivity|].
    unfold bind at 1, getFilter; cbn [st_filter start].
    destruct (decide (TenantExtractionMode (config f) = "header")); [|done].
    destruct Hget as [-> | ->]; eexists; reflexivity.
  - destruct (header !! "X-SHARD-ID"); [eexists; reflexivity|].
    unfold bind at 1, getFilter; cbn [st_filter start].
    destruct (decide (TenantExtractionMode (config f) = "header")); [done|].
    destruct Hget as [-> | (host & t & err & -> & ->)]; eexists; reflexivity.
Qed.

(** X13: [DecodeHeaders] lets the request continue, whatever the request,
    the state of the filter and the outcome of the lookup: a failure to
    find the tenant or the shard is logged and never stops or answers the
    request.  [EncodeHeaders] lets the response continue. *)
Theorem callbacks_always_Continue header endStream st :
  (DecodeHeaders header endStream st).1 = Continue /\
  (EncodeHeaders header endStream st).1.2 = Continue.
Proof.
  split.
  - unfold DecodeHeaders. destruct (header !! "X-SHARD-ID"); [done|].
    unfold bind at 1, getFilter.
    destruct (decide (TenantExtractionMode (config (st_filter st)) = "header")).
    + destruct (header !! TenantHeaderName (config (st_filter st)));
        [apply DecodeHeaders_resolve_Continue | done].
    + destruct (header !! ":authority") as [host|]; [|done].
      destruct (extractTenantFromHost (st_filter st) host) as [t [err|]];
        [done | apply DecodeHeaders_resolve_Continue].
  - unfold EncodeHeaders, bind, getFilter.
    by destruct (decide (currentShardID (st_filter st) <> "")).
Qed.

(** X14: a request that names no tenant causes no lookup: when it already
    carries "X-SHARD-ID", when the tenant header is missing or empty, when
    ":authority" is missing or no tenant can be extracted from it,
    [DecodeHeaders] calls no tier and leaves the filter and the world as
    they were. *)
Theorem DecodeHeaders_no_tenant_no_lookup f w header endStream :
  request_without_tenant f header ->
  st_calls (DecodeHeaders header endStream (start f w)).2 = [] /\
  st_filter (DecodeHeaders header endStream (start f w)).2 = f /\
  st_world (DecodeHeaders header endStream (start f w)).2 = w.
Proof.
  intros H. by destruct (DecodeHeaders_without_tenant f w header endStream H) as [ls ->].
Qed.

Lemma DecodeHeaders_no_tenant_no_lookup_witness :
  st_calls (DecodeHeaders {[ ":authority" := "localhost:10000" ]} false
              (start demo_filter demo_world)).2 = [].
Proof.
  refine (proj1 (DecodeHeaders_no_tenant_no_lookup demo_filter demo_world
                   {[ ":authority" := "localhost:10000" ]} false _)).
  right. right. split; [discriminate|]. right.
  eexists _, _, _. split; reflexivity.
Defined.

(** X15: with an extraction mode that is neither "header" nor "subdomain"
    (which [Parse] accepts), no request is ever looked up: [DecodeHeaders]
    calls no tier and changes nothing. *)
Theorem DecodeHeaders_unknown_mode_inert f w header endStream :
  TenantExtractionMode (config f) <> "header" ->
  TenantExtractionMode (config f) <> "subdomain" ->
  st_calls (DecodeHeaders header endStream (start f w)).2 = [] /\
  st_filter (DecodeHeaders header endStream (start f w)).2 = f /\
  st_world (DecodeHeaders header endStream (start f w)).2 = w.
Proof.
  intros Hh Hs.
  assert (request_without_tenant f header) as H.
  { right. right. split; [done|].
    destruct (header !! ":authority") as [host|]; [right | by left].
    exists host. unfold extractTenantFromHost.
    destruct (decide (TenantExtractionMode (config f) = "subdomain")); [done|]. eauto. }
  by destruct (DecodeHeaders_without_tenant f w header endStream H) as [ls ->].
Qed.

Lemma DecodeHeaders_unknown_mode_inert_witness :
  st_calls (DecodeHeaders demo_request false
              (start {| config := zero_config; memoryCache := None; redisClient := None;
                        s3Client := None; currentShardID := "" |} demo_world)).2 = [].
Proof.
  refine (proj1 (DecodeHeaders_unknown_mode_inert _ demo_world demo_request false _ _));
    discriminate.
Defined.

(** X16: a request that names a tenant is resolved by one lookup of that
    tenant: [DecodeHeaders] makes the calls of [orchestratedLookup] and
    leaves the world and the memory cache that lookup leaves; the current
    shard of the filter becomes the shard found, and stays what it was when
    the lookup returns an error. *)
Theorem DecodeHeaders_resolves_request_tenant f w header endStream tenantID :
  request_tenant f header tenantID ->
  st_calls (DecodeHeaders header endStream (start f w)).2
    = st_calls (orchestratedLookup tenantID (start f w)).2 /\
  st_world (DecodeHeaders header endStream (start f w)).2
    = st_world (orchestratedLookup tenantID (start f w)).2 /\
  memoryCache (st_filter (DecodeHeaders header endStream (start f w)).2)
    = memoryCache (st_filter (orchestratedLookup tenantID (start f w)).2) /\
  (forall shardID,
     (orchestratedLookup tenantID (start f w)).1 = (shardID, None) ->
     currentShardID (st_filter (DecodeHeaders header endStream (start f w)).2) = shardID) /\
  (forall shardID err,
     (orchestratedLookup tenantID (start f w)).1 = (shardID, Some err) ->
     currentShardID (st_filter (DecodeHeaders header endStream (start f w)).2)
     = currentShardID f).
Proof.
  intros Hreq. rewrite (DecodeHeaders_with_tenant f w header endStream tenantID Hreq).
  assert (tenantID <> "") as Hne.
  { destruct Hreq as [_ [(_ & _ & ?)|(_ & host & _ & Hext)]]; [done|].
    unfold extractTenantFromHost in Hext. repeat case_decide; by simplify_eq. }
  destruct (DecodeHeaders_resolve_run tenantID f w Hne) as [ls ->]. cbn.
  pose proof (orchestratedLookup_resolution f w tenantID) as Hres.
  destruct (orchestratedLookup tenantID (start f w)) as [[s [err|]] s']. all: cbn in *.
  - repeat apply conj; try done. intros s0 err0 _.
    inversion Hres; subst; done.
  - repeat apply conj; try done. by intros s0 [= ->].
Qed.

Lemma demo_request_tenant : request_tenant demo_filter demo_request "tenant1".
Proof.
  split; [reflexivity|]. right. split; [discriminate|].
  exists "tenant1.example.com:10000". split; reflexivity.
Defined.

Lemma DecodeHeaders_resolves_request_tenant_witness :
  currentShardID (st_filter (DecodeHeaders demo_request false (start demo_filter demo_world)).2)
  = "shard-a".
Proof.
  exact (proj1 (proj2 (proj2 (proj2
           (DecodeHeaders_resolves_request_tenant demo_filter demo_world demo_request false
              "tenant1" demo_request_tenant)))) "shard-a" eq_refl).
Defined.

(** A shard returned by a filter the program can hold is not empty. *)
Lemma resolution_found_nonempty f w tenantID shardID f' w' cs :
  filter_ok f -> resolution f w tenantID (shardID, None) f' w' cs -> shardID <> "".
Proof.
  intros Hok Hres. inversion Hres as [c s0 Hc0 Hfind|s0 _ Hhit| | |]; subst; [| |done].
  - eapply local_hit_nonempty; [exact Hok|]. by exists c.
  - by destruct Hhit as (_ & _ & _ & ?).
Qed.

(** X17: from request to response.  When the request names a tenant and
    the lookup of that tenant returns a shard, [EncodeHeaders], called
    after [DecodeHeaders], sets "X-SHARD-ID" of the response to that shard
    (replacing a value already there) and leaves every other response
    header as it was. *)
Theorem shard_header_on_response f w request response endStream endStream' tenantID shardID :
  reachable f -> request_tenant f request tenantID ->
  (orchestratedLookup tenantID (start f w)).1 = (shardID, None) ->
  (EncodeHeaders response endStream' (DecodeHeaders request endStream (start f w)).2).1.1
  = <["X-SHARD-ID" := shardID]> response.
Proof.
  intros Hok%reachable_ok Hreq Hfound.
  rewrite (DecodeHeaders_with_tenant f w request endStream tenantID Hreq).
  assert (tenantID <> "") as Hne.
  { destruct Hreq as [_ [(_ & _ & ?)|(_ & host & _ & Hext)]]; [done|].
    unfold extractTenantFromHost in Hext. repeat case_decide; by simplify_eq. }
  destruct (DecodeHeaders_resolve_run tenantID f w Hne) as [ls ->].
  pose proof (orchestratedLookup_resolution f w tenantID) as Hres.
  rewrite Hfound in *. apply resolution_found_nonempty in Hres; [|done].
  unfold EncodeHeaders, bind, getFilter. cbn.
  by destruct (decide (shardID <> "")).
Qed.

Lemma shard_header_on_response_witness :
  (EncodeHeaders {[ "content-type" := "text/plain" ]} false
     (DecodeHeaders demo_request false (start demo_filter demo_world)).2).1.1
  = <["X-SHARD-ID" := "shard-a"]> {[ "content-type" := "text/plain" ]}.
Proof.
  exact (shard_header_on_response demo_filter demo_world demo_request
           {[ "content-type" := "text/plain" ]} false false "tenant1" "shard-a"
           demo_filter_reachable demo_request_tenant eq_refl).
Defined.

(** X18: no shard, no header.  For a filter without a current shard (as
    [filterFactory] builds it), when the request names no tenant, or names
    one whose lookup returns an error (an unknown tenant, a store failure),
    [EncodeHeaders], called after [DecodeHeaders], returns the response
    headers exactly as it got them. *)
Theorem no_shard_header_without_shard f w request response endStream endStream' :
  currentShardID f = "" ->
  (request_without_tenant f request \/
   exists tenantID shardID err,
     request_tenant f request tenantID /\
     (orchestratedLookup tenantID (start f w)).1 = (shardID, Some err)) ->
  (EncodeHeaders response endStream' (DecodeHeaders request endStream (start f w)).2).1.1
  = response.
Proof.
  intros Hcur [Hnone|(t & s & err & Hreq & Hfail)].
  - destruct (DecodeHeaders_without_tenant f w request endStream Hnone) as [ls ->].
    unfold EncodeHeaders, bind, getFilter. cbn. rewrite Hcur.
    by destruct (decide ("" <> "")).
  - rewrite (DecodeHeaders_with_tenant f w request endStream t Hreq).
    assert (t <> "") as Hne.
    { destruct Hreq as [_ [(_ & _ & ?)|(_ & host & _ & Hext)]]; [done|].
      unfold extractTenantFromHost in Hext. repeat case_decide; by simplify_eq. }
    destruct (DecodeHeaders_resolve_run t f w Hne) as [ls ->].
    pose proof (orchestratedLookup_resolution f w t) as Hres.
    rewrite Hfail in *. cbn in Hres.
    assert (st_filter (orchestratedLookup t (start f w)).2 = f) as Hf
      by (inversion Hres; congruence).
    unfold EncodeHeaders, bind, getFilter. cbn. rewrite Hf, Hcur.
    by destruct (decide ("" <> "")).
Qed.

Lemma no_shard_header_without_shard_witness :
  (EncodeHeaders {[ "content-type" := "text/plain" ]} false
     (DecodeHeaders {[ ":authority" := "unknown.example.com" ]} false
        (start demo_filter demo_world)).2).1.1
  = {[ "content-type" := "text/plain" ]}.
Proof.
  apply (no_shard_header_without_shard demo_filter demo_world); [reflexivity|].
  right. exists "unknown", "", (errorString "no shard mapping found for tenant: unknown").
  split; [|reflexivity].
  split; [reflexivity|]. right. split; [discriminate|].
  exists "unknown.example.com". split; reflexivity.
Defined.

(** ** The caches, tenant by tenant *)

Lemma append_inj_l (p a b : string) : p +:+ a = p +:+ b -> a = b.
Proof.
  induction p as [|c p IH]; rewrite ?append_empty, ?append_String; [done|].
  intros [= H]. auto.
Qed.

(** Two tenants never share a Redis key. *)
Lemma redis_key_inj f t t' : redis_key f t = redis_key f t' -> t = t'.
Proof. apply append_inj_l. Qed.

Lemma lookupInRedisCache_value tenantID st :
  is_Some (redisClient (st_filter st)) -> redis_get_err (st_world st) = None ->
  (lookupInRedisCache tenantID st).1 =
  (default "" (redis_kv (st_world st) !! redis_key (st_filter st) tenantID), None).
Proof.
  intros [o Ho] Herr. unfold lookupInRedisCache, redis_key. run_monad.
  rewrite Ho. cbn. rewrite Herr.
  by destruct (redis_kv (st_world st) !! _).
Qed.

(** X19: round trip through Redis.  When Redis works, the shard that
    [cacheInRedis] stores for a tenant is the one [lookupInRedisCache]
    returns for that tenant afterwards, and what is returned for any other
    tenant is what was returned before. *)
Theorem redis_store_then_lookup f w tenantID shardID :
  is_Some (redisClient f) -> redis_set_err w = None -> redis_get_err w = None ->
  (cacheInRedis tenantID shardID (start f w)).1 = None /\
  (lookupInRedisCache tenantID (cacheInRedis tenantID shardID (start f w)).2).1
    = (shardID, None) /\
  (forall other,
     other <> tenantID ->
     (lookupInRedisCache other (cacheInRedis tenantID shardID (start f w)).2).1
     = (lookupInRedisCache other (start f w)).1).
Proof.
  intros Hc Hset Hget. rewrite cacheInRedis_run. cbn [fst snd st_filter st_world start].
  pose proof Hc as [o Ho].
  unfold set_error, kv_after_set. rewrite Ho, Hset. repeat apply conj; [done | |].
  - rewrite lookupInRedisCache_value by done.
    cbn. by rewrite lookup_insert_eq.
  - intros other Hother.
    rewrite !lookupInRedisCache_value by done.
    cbn. rewrite lookup_insert_ne; [done|]. intros Heq. by apply redis_key_inj in Heq.
Qed.

Lemma redis_store_then_lookup_witness :
  (lookupInRedisCache "acme" (cacheInRedis "acme" "shard-c" (start demo_filter demo_world)).2).1
  = ("shard-c", None).
Proof.
  refine (proj1 (proj2 (redis_store_then_lookup demo_filter demo_world "acme" "shard-c"
                          _ eq_refl eq_refl))).
  by eexists.
Defined.

(** X20: a lookup touches Redis under the key of its tenant only: the
    value under any other key, so the entry of any other tenant, is after
    the call what it was before; the behaviour of the store and the
    failures of Redis are not changed by a call either. *)
Theorem orchestratedLookup_redis_frame f w tenantID :
  (forall k, k <> redis_key f tenantID ->
     redis_kv (st_world (orchestratedLookup tenantID (start f w)).2) !! k = redis_kv w !! k) /\
  (forall other, other <> tenantID ->
     redis_kv (st_world (orchestratedLookup tenantID (start f w)).2) !! redis_key f other
     = redis_kv w !! redis_key f other) /\
  s3_get (st_world (orchestratedLookup tenantID (start f w)).2) = s3_get w /\
  redis_get_err (st_world (orchestratedLookup tenantID (start f w)).2) = redis_get_err w /\
  redis_set_err (st_world (orchestratedLookup tenantID (start f w)).2) = redis_set_err w.
Proof.
  pose proof (orchestratedLookup_resolution f w tenantID) as Hres.
  destruct (orchestratedLookup tenantID (start f w)) as [r s']. cbn in *.
  assert (forall k, k <> redis_key f tenantID ->
            redis_kv (st_world s') !! k = redis_kv w !! k) as Hframe.
  { intros k Hk. destruct Hres; try done. cbn. unfold kv_after_set.
    destruct (redisClient f), (redis_set_err w); try done. by rewrite lookup_insert_ne. }
  repeat apply conj; [done | | |..].
  - intros other Hother. apply Hframe. intros Heq. by apply redis_key_inj in Heq.
  - by destruct Hres.
  - by destruct Hres.
  - by destruct Hres.
Qed.

(** X21: a lookup changes nothing of the filter but its memory cache: the
    configuration, the two clients and the current shard are after the
    call what they were before. *)
Theorem orchestratedLookup_filter_frame f w tenantID :
  config (st_filter (orchestratedLookup tenantID (start f w)).2) = config f /\
  redisClient (st_filter (orchestratedLookup tenantID (start f w)).2) = redisClient f /\
  s3Client (st_filter (orchestratedLookup tenantID (start f w)).2) = s3Client f /\
  currentShardID (st_filter (orchestratedLookup tenantID (start f w)).2) = currentShardID f.
Proof.
  pose proof (orchestratedLookup_resolution f w tenantID) as Hres.
  destruct (orchestratedLookup tenantID (start f w)) as [r s']. cbn in *.
  destruct Hres; try done; unfold cache_added; by destruct (memoryCache f).
Qed.

Lemma lru_find_removelast k l :
  lru_find k (removelast l) = lru_find k l \/ lru_find k (removelast l) = None.
Proof.
  induction l as [|[k' v] [|y l] IH]; [by left | by right |].
  change (removelast ((k', v) :: y :: l)) with ((k', v) :: removelast (y :: l)).
  cbn [lru_find]. destruct (decide (k' = k)); [by left | exact IH].
Qed.

(** What [Add] does to the entry of another key: it keeps it, or evicts it;
    and it keeps it when the cache has room. *)
Lemma lru_find_Add_ne c k v k' :
  k <> k' ->
  (lru_find k' (lru_items (lru_Add c k v)) = lru_find k' (lru_items c) \/
   lru_find k' (lru_items (lru_Add c k v)) = None) /\
  (lru_Len c < lru_size c ->
   lru_find k' (lru_items (lru_Add c k v)) = lru_find k' (lru_items c)).
Proof.
  intros Hne. unfold lru_Add, lru_Len.
  destruct (lru_find k (lru_items c)) as [v0|] eqn:Hk; cbn [lru_items lru_size].
  - cbn [lru_find]. destruct (decide (k = k')); [done|].
    rewrite (lru_find_remove_ne _ _ _ Hne). auto.
  - assert (lru_find k' ((k, v) :: lru_items c) = lru_find k' (lru_items c)) as Hcons.
    { cbn [lru_find]. by destruct (decide (k = k')). }
    destruct (decide _) as [Hfull|Hroom].
    + split.
      * rewrite <- Hcons. apply lru_find_removelast.
      * cbn [length] in Hfull. lia.
    + auto.
Qed.

(** X22: a lookup never changes the shard that the memory cache holds for
    another tenant: after the call the cache answers for that tenant as
    before, or no longer holds it (it was evicted); and it answers as
    before whenever the cache was not full. *)
Theorem orchestratedLookup_cache_frame f w tenantID other c c' :
  other <> tenantID ->
  memoryCache f = Some c ->
  memoryCache (st_filter (orchestratedLookup tenantID (start f w)).2) = Some c' ->
  (lru_find other (lru_items c') = lru_find other (lru_items c) \/
   lru_find other (lru_items c') = None) /\
  (lru_Len c < lru_size c -> lru_find other (lru_items c') = lru_find other (lru_items c)).
Proof.
  intros Hother Hc Hc'.
  pose proof (orchestratedLookup_resolution f w tenantID) as Hres.
  destruct (orchestratedLookup tenantID (start f w)) as [r s']. cbn in *.
  assert (tenantID <> other) as Hne by congruence.
  destruct Hres as [c0 s Hc0 Hfind| | | |]; unfold cache_added in *;
    rewrite ?Hc in *; cbn in *; simplify_eq;
    try (split; [by left | done]); try (by apply lru_find_Add_ne).
  rewrite lru_find_Get. split; [by left | done].
Qed.

Lemma orchestratedLookup_cache_frame_witness :
  lru_find "tenant1"
    (lru_items {| lru_size := 2; lru_items := [("acme", "shard-c"); ("tenant1", "shard-a")] |})
  = lru_find "tenant1" [("tenant1", "shard-a")].
Proof.
  refine (proj2 (orchestratedLookup_cache_frame
                   (with_cache demo_filter {| lru_size := 2; lru_items := [("tenant1", "shard-a")] |})
                   demo_world "acme" "tenant1"
                   {| lru_size := 2; lru_items := [("tenant1", "shard-a")] |}
                   {| lru_size := 2; lru_items := [("acme", "shard-c"); ("tenant1", "shard-a")] |}
                   _ eq_refl eq_refl) _).
  - discriminate.
  - unfold lru_Len. cbn. lia.
Defined.

(** X23: [lookupInS3] only reads.  It leaves the filter and the world as
    they were and fetches the configured object at most once; and for a
    tenant that the fetched table does not have it returns the empty shard
    without an error: the miss becomes an error in [orchestratedLookup]
    only. *)
Theorem lookupInS3_reads_only f w tenantID :
  st_filter (lookupInS3 tenantID (start f w)).2 = f /\
  st_world (lookupInS3 tenantID (start f w)).2 = w /\
  st_calls (lookupInS3 tenantID (start f w)).2 = s3_calls f /\
  (forall d, is_Some (s3Client f) -> store_answer f w = Parsed d ->
             tenantID ∉ (TenantID <$> Mappings d) ->
             (lookupInS3 tenantID (start f w)).1 = ("", None)).
Proof.
  destruct (store_cases f w) as [[e Hfail]|[Hc [d Hd]]].
  - destruct (lookupInS3_failure tenantID (start f w) e Hfail) as [ls Hrun].
    rewrite Hrun. cbn. repeat apply conj; try done.
    intros d [cl Hcl] Hd _. destruct Hfail as [[? _]|[_ [?|[?|?]]]]; congruence.
  - destruct (lookupInS3_parsed tenantID (start f w) d Hc Hd) as [ls Hrun].
    rewrite Hrun. cbn. destruct Hc as [cl Hcl]. unfold s3_calls. rewrite Hcl.
    repeat apply conj; try done.
    intros d' _ Hd' Habs%searchMappings_None. assert (d' = d) as -> by congruence.
    by rewrite Habs.
Qed.
